(** * Groupy: membership requests (groupy/resources.py)

    A shallow embedding of [Resource], [Member] and [MembershipRequest]
    from [groupy/resources.py], together with the properties of the
    asynchronous membership-request protocol: reconciliation of the
    requested batch against the server's answer, the readiness state
    machine, and the blocking [poll].

    Python objects are mutable; every method below takes the object (and
    the outside world) and returns the outcome together with the object and
    the world as the call left them, also when the call raises. *)

From stdpp Require Import base option list strings pretty gmap fin_maps.
From Stdlib Require Import ZArith Lia.

Open Scope string_scope.
Open Scope list_scope.
Open Scope Z_scope.

(** ** Data *)

(** Field values.  The fields these methods touch ([guid], [id], [user_id],
    [group_id], [nickname], [results_id]) hold JSON strings. *)
Definition value : Type := string.

(** A decoded JSON object, as a Python [dict] with string keys: the
    [**data] of a resource, a requested record, a returned record. *)
Abbreviation record := (gmap string value).

(** An HTTP response as the transport hands it over: the status code and
    the [members] list of the decoded body. *)
Record Response : Type := mkResponse {
  status_code : Z;
  response_members : list record;
}.

(** Modelled from the spec: [groupy.exceptions] is missing.  Its taxonomy
    has [ResultsNotReady], [ResultsExpired] (both named by [resources.py])
    and a generic request failure, here [BadResponse], "status+body
    attached": each carries the response that caused it.  The other
    constructors are Python's built-in exceptions. *)
Inductive exn : Type :=
| AttributeError (cls attr : string)
| KeyError (key : string)
| TypeError
| ValueError
| ResultsNotReady (resp : Response)
| ResultsExpired (resp : Response)
| BadResponse (resp : Response).

(** The result of running a method: a value, a raised exception, or
    [OutOfScript] when the scripted environment (the server's answers, the
    clock's readings) has nothing left to answer the call with. *)
Inductive outcome (A : Type) : Type :=
| Ret (a : A)
| Raise (e : exn)
| OutOfScript.

Arguments Ret {A} a.
Arguments Raise {A} e.
Arguments OutOfScript {A}.

#[global] Instance outcome_ret : MRet outcome := fun A a => Ret a.
#[global] Instance outcome_bind : MBind outcome := fun A B f c =>
  match c with
  | Ret a => f a
  | Raise e => Raise e
  | OutOfScript => OutOfScript
  end.

(** ** Managers

    [groupy.managers] is used by the resources only through its
    constructors. *)

Record Session : Type := mkSession { token : string }.

(** Modelled from the spec: the [managers] module is missing; a manager
    "holds a reference to Transport and, for scoped managers, a parent
    resource identifier" and is "stateless beyond these references". *)
Record Memberships : Type := mkMemberships {
  session : Session;
  group_id : value;
}.

Record DirectMessages : Type := mkDirectMessages {
  dm_session : Session;
  other_user_id : value;
}.

Record User : Type := mkUser { user_session : Session }.

(** ** Resource *)

(** [Resource.__getattr__]: fields of [data] read as attributes. *)
Definition Resource_getattr (cls : string) (data : record) (attr : string)
  : outcome value :=
  match data !! attr with
  | None => Raise (AttributeError cls attr)
  | Some v => Ret v
  end.

(** Python refuses a call whose [**kwargs] name a parameter that is already
    bound positionally ([self], [manager]). *)
Definition kwargs_clash (kw : record) : bool :=
  bool_decide (is_Some (kw !! "self")) || bool_decide (is_Some (kw !! "manager")).

(** ** Member *)

Record Member : Type := mkMember {
  member_manager : Memberships;
  member_data : record;
  messages : DirectMessages;
  _user : User;
  _memberships : Memberships;
}.

(** [Member(manager, **kw)]: [Member.__init__(self, manager, group_id,
    **data)] with every argument after [manager] passed by keyword. *)
Definition Member_init (manager : Memberships) (kw : record) : outcome Member :=
  if kwargs_clash kw then Raise TypeError else
  match kw !! "group_id" with
  | None => Raise TypeError
  | Some gid =>
      let data := delete "group_id" kw in
      uid ← Resource_getattr "Member" data "user_id";
      Ret {| member_manager := manager;
             member_data := data;
             messages := mkDirectMessages (session manager) uid;
             _user := mkUser (session manager);
             _memberships := mkMemberships (session manager) gid |}
  end.

(** [Member(manager, group_id, **m)], the call of [Group.__init__]. *)
Definition Member_init_positional (manager : Memberships) (gid : value)
    (kw : record) : outcome Member :=
  if kwargs_clash kw || bool_decide (is_Some (kw !! "group_id"))
  then Raise TypeError
  else
    uid ← Resource_getattr "Member" kw "user_id";
    Ret {| member_manager := manager;
           member_data := kw;
           messages := mkDirectMessages (session manager) uid;
           _user := mkUser (session manager);
           _memberships := mkMemberships (session manager) gid |}.

Section Repr.
(** Python's built-in [repr] on a field value. *)
Variable py_repr : value → string.

(** [Member.__repr__]. *)
Definition Member_repr (m : Member) : outcome string :=
  let klass := "Member" in
  uid ← Resource_getattr klass (member_data m) "user_id";
  nick ← Resource_getattr klass (member_data m) "nickname";
  Ret ("<" +:+ klass +:+ "(user_id=" +:+ py_repr uid
           +:+ ", nickname=" +:+ py_repr nick +:+ ")>").
End Repr.

(** ** MembershipRequest *)

(** [Results = namedtuple('Results', 'members failures')]. *)
Record Results : Type := mkResults {
  members : list Member;
  failures : list record;
}.

Record MembershipRequest : Type := mkMembershipRequest {
  manager : Memberships;
  data : record;
  _requests : list record;
  _expired_exception : option exn;
  _not_ready_exception : option exn;
  _is_ready : bool;
  results : option Results;
}.

(** [MembershipRequest(manager, *requests, **data)]. *)
Definition MembershipRequest_init (mgr : Memberships) (requests : list record)
    (kw : record) : outcome MembershipRequest :=
  if kwargs_clash kw then Raise TypeError else
  Ret {| manager := mgr;
         data := kw;
         _requests := requests;
         _expired_exception := None;
         _not_ready_exception := None;
         _is_ready := false;
         results := None |}.

Definition set_results (r : option Results) (self : MembershipRequest) :=
  {| manager := manager self; data := data self; _requests := _requests self;
     _expired_exception := _expired_exception self;
     _not_ready_exception := _not_ready_exception self;
     _is_ready := _is_ready self; results := r |}.

Definition set_is_ready (b : bool) (self : MembershipRequest) :=
  {| manager := manager self; data := data self; _requests := _requests self;
     _expired_exception := _expired_exception self;
     _not_ready_exception := _not_ready_exception self;
     _is_ready := b; results := results self |}.

Definition set_not_ready_exception (e : option exn) (self : MembershipRequest) :=
  {| manager := manager self; data := data self; _requests := _requests self;
     _expired_exception := _expired_exception self;
     _not_ready_exception := e;
     _is_ready := _is_ready self; results := results self |}.

Definition set_expired_exception (e : option exn) (self : MembershipRequest) :=
  {| manager := manager self; data := data self; _requests := _requests self;
     _expired_exception := e;
     _not_ready_exception := _not_ready_exception self;
     _is_ready := _is_ready self; results := results self |}.

(** *** Reconciliation: [_process_new_members] *)

(** [data = {member['guid']: member for member in results}], built left to
    right into [idx]: a later record with the same guid replaces an earlier
    one, a record without [guid] raises [KeyError]. *)
Fixpoint index_by_guid (results : list record) (idx : gmap value record)
  : outcome (gmap value record) :=
  match results with
  | [] => Ret idx
  | member :: rest =>
      match member !! "guid" with
      | None => Raise (KeyError "guid")
      | Some g => index_by_guid rest (<[g := member]> idx)
      end
  end.

(** [data[request['guid']]] under [try]: either subscript may raise the
    [KeyError] that the [except] clause catches. *)
Definition lookup_request (idx : gmap value record) (request : record)
  : option (value * record) :=
  g ← request !! "guid"; member_data ← idx !! g; Some (g, member_data).

(** The [for request in self._requests] loop.  [idx] holds the returned
    records by reference: [member_data.pop('guid')] changes the record that
    [idx] holds, so the record is written back under its key. *)
Fixpoint reconcile (mgr : Memberships) (requests : list record)
    (idx : gmap value record) (ms : list Member) (fs : list record)
  : outcome Results :=
  match requests with
  | [] => Ret (mkResults ms fs)
  | request :: rest =>
      match lookup_request idx request with
      | None => reconcile mgr rest idx ms (fs ++ [request])
      | Some (g, member_data) =>
          match member_data !! "guid" with
          | None => Raise (KeyError "guid")
          | Some _ =>
              let member_data' := delete "guid" member_data in
              match Member_init mgr member_data' with
              | Ret member =>
                  reconcile mgr rest (<[g := member_data']> idx)
                            (ms ++ [member]) fs
              | Raise e => Raise e
              | OutOfScript => OutOfScript
              end
          end
      end
  end.

Definition _process_new_members (results' : list record)
    (self : MembershipRequest) : outcome unit * MembershipRequest :=
  match index_by_guid results' ∅ with
  | Ret idx =>
      match reconcile (manager self) (_requests self) idx [] [] with
      | Ret res => (Ret tt, set_results (Some res) self)
      | Raise e => (Raise e, self)
      | OutOfScript => (OutOfScript, self)
      end
  | Raise e => (Raise e, self)
  | OutOfScript => (OutOfScript, self)
  end.

(** *** The outside world *)

(** What a run does to the outside world, in order: the calls of
    [manager.check] (with the results id passed) and of [time.sleep]. *)
Inductive event : Type :=
| EvCheck (results_id : value)
| EvSleep (interval : Z).

(** The server is a script: the outcome of each successive
    [manager.check] call, a list of returned records or a raised
    exception.  [trace] records the events so far. *)
Record World : Type := mkWorld {
  server : list (exn + list record);
  trace : list event;
}.

Definition is_check (ev : event) : bool :=
  match ev with EvCheck _ => true | EvSleep _ => false end.

Definition is_sleep (ev : event) : bool :=
  match ev with EvSleep _ => true | EvCheck _ => false end.

(** How many [manager.check] calls, how many [time.sleep] calls. *)
Definition checks (t : list event) : nat := length (List.filter is_check t).
Definition sleeps (t : list event) : nat := length (List.filter is_sleep t).

(** *** [_check_if_ready] *)

Definition _check_if_ready (self : MembershipRequest) (w : World)
  : outcome unit * MembershipRequest * World :=
  match Resource_getattr "MembershipRequest" (data self) "results_id" with
  | Ret rid =>
      match server w with
      | [] => (OutOfScript, self, w)
      | answer :: rest =>
          let w' := mkWorld rest (trace w ++ [EvCheck rid]) in
          match answer with
          | inr results' =>
              let self1 := set_is_ready true self in
              let self2 := set_not_ready_exception None self1 in
              let '(o, self3) := _process_new_members results' self2 in
              (o, self3, w')
          | inl (ResultsNotReady resp) =>
              let self1 := set_is_ready false self in
              (Ret tt,
               set_not_ready_exception (Some (ResultsNotReady resp)) self1, w')
          | inl (ResultsExpired resp) =>
              let self1 := set_is_ready true self in
              (Ret tt,
               set_expired_exception (Some (ResultsExpired resp)) self1, w')
          | inl e => (Raise e, self, w')
          end
      end
  | Raise e => (Raise e, self, w)
  | OutOfScript => (OutOfScript, self, w)
  end.

(** *** [is_ready] *)

Definition is_ready (self : MembershipRequest) (w : World)
  : outcome bool * MembershipRequest * World :=
  if negb (_is_ready self) then
    match _check_if_ready self w with
    | (Ret _, self', w') => (Ret (_is_ready self'), self', w')
    | (Raise e, self', w') => (Raise e, self', w')
    | (OutOfScript, self', w') => (OutOfScript, self', w')
    end
  else (Ret (_is_ready self), self, w).

(** *** [get] *)

(** An exception object is truthy, [None] is not: [if
    self._expired_exception:] asks whether one was stored. *)
Definition get (self : MembershipRequest) : outcome (option Results) :=
  match _expired_exception self with
  | Some e => Raise e
  | None =>
      match _not_ready_exception self with
      | Some e => Raise e
      | None => Ret (results self)
      end
  end.

(** *** [poll] *)

(** [time.sleep(interval)]; a negative length is refused. *)
Definition sleep (interval : Z) (w : World) : outcome unit * World :=
  if interval <? 0 then (Raise ValueError, w)
  else (Ret tt, mkWorld (server w) (trace w ++ [EvSleep interval])).

(** The [while] loop of [poll].  Time is counted in whole ticks; [clock]
    lists what the successive calls of [time.time()] return, one reading
    per evaluation of the loop condition. *)
Fixpoint poll_loop (start timeout interval : Z) (clock : list Z)
    (self : MembershipRequest) (w : World)
  : outcome unit * MembershipRequest * World :=
  match clock with
  | [] => (OutOfScript, self, w)
  | now :: clock' =>
      if now - start <? timeout then
        match is_ready self w with
        | (Ret ready, self', w') =>
            if negb ready then
              match sleep interval w' with
              | (Ret _, w'') =>
                  poll_loop start timeout interval clock' self' w''
              | (Raise e, w'') => (Raise e, self', w'')
              | (OutOfScript, w'') => (OutOfScript, self', w'')
              end
            else (Ret tt, self', w')
        | (Raise e, self', w') => (Raise e, self', w')
        | (OutOfScript, self', w') => (OutOfScript, self', w')
        end
      else (Ret tt, self, w)
  end.

(** [poll(timeout, interval)]; the first reading of [clock] is [start]. *)
Definition poll (timeout interval : Z) (clock : list Z)
    (self : MembershipRequest) (w : World)
  : outcome (option Results) * MembershipRequest * World :=
  match clock with
  | [] => (OutOfScript, self, w)
  | start :: clock' =>
      match poll_loop start timeout interval clock' self w with
      | (Ret _, self', w') => (get self', self', w')
      | (Raise e, self', w') => (Raise e, self', w')
      | (OutOfScript, self', w') => (OutOfScript, self', w')
      end
  end.

(** *** The state of a request *)

Inductive state : Type := Pending | Ready | Expired.

(** The [state] of the specification, read off the fields. *)
Definition state_of (self : MembershipRequest) : state :=
  if _is_ready self then
    match _expired_exception self with
    | Some _ => Expired
    | None => Ready
    end
  else Pending.

(** *** Sequences of public operations *)

Inductive op : Type :=
| OpIsReady
| OpPoll (timeout interval : Z) (clock : list Z)
| OpGet.

(** One public call by a caller who goes on whatever the call returned or
    raised: only the request and the world are kept. *)
Definition run_op (o : op) (st : MembershipRequest * World)
  : MembershipRequest * World :=
  let '(self, w) := st in
  match o with
  | OpIsReady => let '(_, self', w') := is_ready self w in (self', w')
  | OpPoll timeout interval clock =>
      let '(_, self', w') := poll timeout interval clock self w in (self', w')
  | OpGet => (self, w)
  end.

Definition run_ops (os : list op) (st : MembershipRequest * World)
  : MembershipRequest * World :=
  foldl (λ st o, run_op o st) st os.

(** ** The manager's [check] *)

(** Modelled from the spec: [Memberships.check] lives in [groupy.managers],
    which is missing.  "Response code 503 fails with ResultsNotReady;
    response code 404 fails with ResultsExpired; any 2xx returns the
    decoded members list from the body; any other code fails with a
    generic request error (propagated, not classified)." *)
Definition Memberships_check (resp : Response) : exn + list record :=
  if status_code resp =? 503 then inl (ResultsNotReady resp)
  else if status_code resp =? 404 then inl (ResultsExpired resp)
  else if (200 <=? status_code resp) && (status_code resp <? 300)
       then inr (response_members resp)
  else inl (BadResponse resp).

(** ** Member: the operations on a member *)

(** Modelled from the spec: [groupy.managers] is missing; a manager "issues
    requests" and is "stateless beyond" its references.  A call on a
    manager is recorded as what was called, on which manager, with what. *)
Inductive manager_call : Type :=
| Blocks_between (user : User) (other_user_id' : value)
| Blocks_block (user : User) (other_user_id' : value)
| Blocks_unblock (user : User) (other_user_id' : value)
| Memberships_remove (memberships : Memberships) (membership_id : value).

(** [Member.is_blocked], [block], [unblock] and [remove]: each reads one
    field and hands it to a manager. *)
Definition Member_is_blocked (m : Member) : outcome manager_call :=
  uid ← Resource_getattr "Member" (member_data m) "user_id";
  Ret (Blocks_between (_user m) uid).

Definition Member_block (m : Member) : outcome manager_call :=
  uid ← Resource_getattr "Member" (member_data m) "user_id";
  Ret (Blocks_block (_user m) uid).

Definition Member_unblock (m : Member) : outcome manager_call :=
  uid ← Resource_getattr "Member" (member_data m) "user_id";
  Ret (Blocks_unblock (_user m) uid).

Definition Member_remove (m : Member) : outcome manager_call :=
  mid ← Resource_getattr "Member" (member_data m) "id";
  Ret (Memberships_remove (_memberships m) mid).

(** ** DirectMessage *)

(** [sorted] on a pair of strings: the second comes first when it is
    smaller, by [<] on strings (character by character, by code point);
    equal strings keep their order. *)
Definition sorted_pair (a b : string) : list string :=
  if String.ltb b a then [b; a] else [a; b].

(** [DirectMessage.ensure_conversation_id(data)]; the dictionary is changed
    in place, and is returned as the call leaves it. *)
Definition ensure_conversation_id (data : record) : outcome unit * record :=
  match data !! "conversation_id" with
  | Some _ => (Ret tt, data)
  | None =>
      match data !! "recipient_id" with
      | None => (Raise (KeyError "recipient_id"), data)
      | Some recipient =>
          match data !! "sender_id" with
          | None => (Raise (KeyError "sender_id"), data)
          | Some sender =>
              let participant_ids := sorted_pair recipient sender in
              (Ret tt,
               <[ "conversation_id" := String.concat "+" participant_ids ]> data)
          end
      end
  end.

(** ** Attachments *)

(** The classes made by [AttachmentMeta], in the order of the file. *)
Inductive attachment_class : Type :=
| Attachment | Image | Location | Split | Emoji | Mentions.

#[global] Instance attachment_class_eq_dec : EqDecision attachment_class.
Proof. solve_decision. Defined.

Definition class_name (c : attachment_class) : string :=
  match c with
  | Attachment => "Attachment"
  | Image => "Image"
  | Location => "Location"
  | Split => "Split"
  | Emoji => "Emoji"
  | Mentions => "Mentions"
  end.

(** [str.lower] on the letters A to Z; the names of the classes have no
    other capitals. *)
Definition lower_ascii (c : Ascii.ascii) : Ascii.ascii :=
  let n := Ascii.nat_of_ascii c in
  if ((65 <=? n) && (n <=? 90))%nat then Ascii.ascii_of_nat (n + 32) else c.

Fixpoint lower (s : string) : string :=
  match s with
  | EmptyString => EmptyString
  | String c s' => String (lower_ascii c) (lower s')
  end.

(** [AttachmentMeta.__init__]: [cls._types[name.lower()] = cls]. *)
Definition register (types : gmap string attachment_class)
    (cls : attachment_class) : gmap string attachment_class :=
  <[ lower (class_name cls) := cls ]> types.

(** [AttachmentMeta._types] once the module is loaded. *)
Definition _types : gmap string attachment_class :=
  foldl register ∅ [Attachment; Image; Location; Split; Emoji; Mentions].

(** An attachment: its class, and what [Resource.__init__] stored.  [M]
    is the type of the manager it was made with. *)
Record attachment (M : Type) : Type := mkAttachment {
  attachment_cls : attachment_class;
  attachment_manager : M;
  attachment_data : record;
}.

Arguments mkAttachment {M} _ _ _.
Arguments attachment_cls {M} _.
Arguments attachment_manager {M} _.
Arguments attachment_data {M} _.

(** [cls(manager, **kw)] for an attachment class: [Attachment.__init__(self,
    manager, type, **data)] takes [type] out of the keywords and passes it
    on with the rest. *)
Definition Attachment_init {M : Type} (cls : attachment_class) (manager : M)
    (kw : record) : outcome (attachment M) :=
  if kwargs_clash kw then Raise TypeError else
  match kw !! "type" with
  | None => Raise TypeError
  | Some type =>
      let data := delete "type" kw in
      Ret (mkAttachment cls manager (<[ "type" := type ]> data))
  end.

(** [Attachment.to_json]. *)
Definition to_json {M : Type} (a : attachment M) : record := attachment_data a.

(** [cls.from_data(manager, **kw)]. *)
Definition from_data {M : Type} (cls : attachment_class) (manager : M)
    (kw : record) : outcome (attachment M) :=
  if bool_decide (is_Some (kw !! "cls")) || bool_decide (is_Some (kw !! "manager"))
  then Raise TypeError
  else
    match kw !! "type" with
    | None => Raise (KeyError "type")
    | Some type => Attachment_init (default cls (_types !! type)) manager kw
    end.

(** [cls.from_bulk_data(manager, attachments)]: the list comprehension
    builds the attachments from left to right and stops at the first that
    raises. *)
Fixpoint from_bulk_data {M : Type} (cls : attachment_class) (manager : M)
    (attachments : list record) : outcome (list (attachment M)) :=
  match attachments with
  | [] => Ret []
  | a :: rest =>
      x ← from_data cls manager a;
      xs ← from_bulk_data cls manager rest;
      Ret (x :: xs)
  end.

(** ** GenericMessage: the representation *)

(** A Python [str], as the sequence of its code points: what [len]
    counts and a slice cuts. *)
Definition pystr : Type := list N.

(** The [str] of a literal of the source, which has ASCII characters
    only: one code point for each. *)
Definition literal (s : string) : pystr :=
  Ascii.N_of_ascii <$> String.list_ascii_of_string s.

(** [GenericMessage.preview_length]. *)
Definition preview_length : nat := 42.

(** The text shown by [GenericMessage.__repr__]: [if text and len(text) >
    self.preview_length: text = text[:self.preview_length - 3] + '...'].
    A string is truthy when it is not empty. *)
Definition preview_text (text : pystr) : pystr :=
  if negb (bool_decide (text = [])) && (preview_length <? length text)%nat
  then take (preview_length - 3) text ++ literal "..."
  else text.

(** What [__repr__] reads of a message: its data, here the fields that
    hold strings ([name], [text]), and the attachments that [__init__]
    built. *)
Record GenericMessage (M : Type) : Type := mkGenericMessage {
  message_data : gmap string pystr;
  message_attachments : list (attachment M);
}.

Arguments mkGenericMessage {M} _ _.
Arguments message_data {M} _.
Arguments message_attachments {M} _.

(** [Resource.__getattr__] on the data of a message. *)
Definition message_getattr (cls : string) (data : gmap string pystr)
    (attr : string) : outcome pystr :=
  match data !! attr with
  | None => Raise (AttributeError cls attr)
  | Some v => Ret v
  end.

Section MessageRepr.
(** Python's built-in [repr] on a string, and the name of the message's
    class. *)
Variable py_repr : pystr → pystr.
Variable klass : string.

(** [GenericMessage.__repr__]. *)
Definition GenericMessage_repr {M : Type} (msg : GenericMessage M)
  : outcome pystr :=
  text ← message_getattr klass (message_data msg) "text";
  let text := preview_text text in
  name ← message_getattr klass (message_data msg) "name";
  Ret (literal "<" ++ literal klass ++ literal "(name=" ++ py_repr name
         ++ literal ", text=" ++ py_repr text ++ literal ", attachments="
         ++ literal (pretty (length (message_attachments msg)))
         ++ literal ")>").
End MessageRepr.

(** ** Notions the properties are stated with *)

(** The guids borne by a list of records, in order. *)
Definition guids (l : list record) : list value := omap (λ rec : record, rec !! "guid") l.

(** The request's guid is the guid of some returned record. *)
Definition guid_in (returned : list record) (request : record) : Prop :=
  match request !! "guid" with
  | Some g => g ∈ guids returned
  | None => False
  end.

#[global] Instance guid_in_dec returned request : Decision (guid_in returned request).
Proof. unfold guid_in. destruct (request !! "guid"); apply _. Defined.

(** A returned record from which [Member_init] can build a member once its
    guid is taken out: it names the group and the user, and no parameter of
    the constructor. *)
Definition member_fields (rec : record) : Prop :=
  is_Some (rec !! "group_id") ∧ is_Some (rec !! "user_id") ∧
  rec !! "self" = None ∧ rec !! "manager" = None.

(** Member [m] is what the request [request] got: the member built from a
    returned record with the request's guid, less that guid. *)
Definition answers (mgr : Memberships) (returned : list record)
    (m : Member) (request : record) : Prop :=
  ∃ g rec, request !! "guid" = Some g ∧ rec ∈ returned ∧
           rec !! "guid" = Some g ∧
           Member_init mgr (delete "guid" rec) = Ret m.

(** [is_ready()] called [n] times in a row, with what each call gave. *)
Fixpoint is_ready_times (n : nat) (self : MembershipRequest) (w : World)
  : list (outcome bool) * MembershipRequest * World :=
  match n with
  | O => ([], self, w)
  | S n' =>
      let '(o, self', w') := is_ready self w in
      let '(os, self'', w'') := is_ready_times n' self' w' in
      (o :: os, self'', w'')
  end.

(** The expired condition has been recorded. *)
Definition expired_recorded (self : MembershipRequest) : Prop :=
  ∃ resp, _expired_exception self = Some (ResultsExpired resp).

(** [poll] in the words of the specification: "while elapsed time <
    timeout and isReady() is false, suspend for interval, then re-check
    elapsed time; after loop exit (by timeout or readiness), call and
    return get()".  [clock] holds the readings taken after [start]. *)
Inductive poll_run (start timeout interval : Z)
  : list Z → MembershipRequest → World →
    outcome (option Results) → MembershipRequest → World → Prop :=
| poll_timed_out now clock self w :
    timeout ≤ now - start →
    poll_run start timeout interval (now :: clock) self w (get self) self w
| poll_became_ready now clock self w self' w' :
    now - start < timeout →
    is_ready self w = (Ret true, self', w') →
    poll_run start timeout interval (now :: clock) self w (get self') self' w'
| poll_suspend now clock self w self1 w1 w2 o self' w' :
    now - start < timeout →
    is_ready self w = (Ret false, self1, w1) →
    sleep interval w1 = (Ret tt, w2) →
    poll_run start timeout interval clock self1 w2 o self' w' →
    poll_run start timeout interval (now :: clock) self w o self' w'.

(** What a run of [poll] may do to the world, in the words of the
    specification: checks with a suspension of [interval] between them. *)
Inductive poll_events (interval : Z) : list event → Prop :=
| poll_events_none : poll_events interval []
| poll_events_last rid : poll_events interval [EvCheck rid]
| poll_events_more rid evs :
    poll_events interval evs →
    poll_events interval (EvCheck rid :: EvSleep interval :: evs).

(** A record that [from_data] makes an attachment of: it has a [type], and
    names no parameter of the calls it is passed through. *)
Definition attachment_fields (kw : record) : Prop :=
  is_Some (kw !! "type") ∧ kw !! "cls" = None ∧
  kw !! "manager" = None ∧ kw !! "self" = None.

(** ** Fixtures *)

Definition a_manager : Memberships := mkMemberships (mkSession "token") "group".

(** Scenario A of the specification. *)
Definition ann_request : record := {[ "guid" := "g1"; "nickname" := "Ann" ]}.
Definition ann_returned : record :=
  {[ "guid" := "g1"; "id" := "m1"; "user_id" := "u1" ]}.
Definition ann_response : Response := mkResponse 200 [ann_returned].
Definition not_ready_response : Response := mkResponse 503 [].
Definition gone_response : Response := mkResponse 404 [].

Definition scenario_request : MembershipRequest :=
  {| manager := a_manager; data := {[ "results_id" := "r1" ]};
     _requests := [ann_request];
     _expired_exception := None; _not_ready_exception := None;
     _is_ready := false; results := None |}.

(** The same returned record, naming its group as well. *)
Definition ann_returned_in_group : record := <[ "group_id" := "group" ]> ann_returned.

Definition ann_member : Member :=
  {| member_manager := a_manager;
     member_data := {[ "id" := "m1"; "user_id" := "u1" ]};
     messages := mkDirectMessages (session a_manager) "u1";
     _user := mkUser (session a_manager);
     _memberships := mkMemberships (session a_manager) "group" |}.

(** The scenario's request after a check that said "not ready", and after
    a check that said "gone". *)
Definition not_ready_request : MembershipRequest :=
  set_not_ready_exception (Some (ResultsNotReady not_ready_response))
    (set_is_ready false scenario_request).

Definition expired_request : MembershipRequest :=
  set_expired_exception (Some (ResultsExpired gone_response))
    (set_is_ready true scenario_request).

(** A batch of two, of which the server returns the first, and a record
    that nobody asked for. *)
Definition bea_request : record := {[ "guid" := "g2"; "nickname" := "Bea" ]}.
Definition stray_returned : record := {[ "guid" := "g9"; "id" := "m9" ]}.

Definition batch_request : MembershipRequest :=
  {| manager := a_manager; data := {[ "results_id" := "r1" ]};
     _requests := [ann_request; bea_request];
     _expired_exception := None; _not_ready_exception := None;
     _is_ready := false; results := None |}.

(** A batch that asks for the same guid twice. *)
Definition twice_request : MembershipRequest :=
  {| manager := a_manager; data := {[ "results_id" := "r1" ]};
     _requests := [ann_request; ann_request];
     _expired_exception := None; _not_ready_exception := None;
     _is_ready := false; results := None |}.

(** [get_fake_member_data()] of the tests. *)
Definition fake_member_data : record :=
  {[ "id" := "foo"; "group_id" := "bar"; "user_id" := "baz"; "nicknack" := "nick" ]}.

(** The member of the tests, [Member(manager, **get_fake_member_data())]. *)
Definition fake_member : Member :=
  {| member_manager := a_manager;
     member_data := delete "group_id" fake_member_data;
     messages := mkDirectMessages (session a_manager) "baz";
     _user := mkUser (session a_manager);
     _memberships := mkMemberships (session a_manager) "bar" |}.

(** Attachments as the service sends them, and one without a [type]. *)
Definition image_data : record :=
  {[ "type" := "image"; "url" := "https://i.groupme.com/123" ]}.
Definition location_data : record :=
  {[ "type" := "location"; "lat" := "40.738206"; "lng" := "-73.993285";
     "name" := "GroupMe HQ" ]}.
Definition untyped_data : record := {[ "url" := "https://i.groupme.com/456" ]}.

(** Two long texts of accented letters (U+00E9) that begin alike, and a
    stand-in for [repr] on such strings. *)
Definition long_text_1 : pystr := replicate 39 233%N ++ literal " and so on".
Definition long_text_2 : pystr := replicate 39 233%N ++ literal ", or not".
Definition quoted_str (s : pystr) : pystr := literal "'" ++ s ++ literal "'".

(** A stand-in for [repr] on plain strings: the string in single quotes. *)
Definition quoted (s : value) : string := "'" +:+ s +:+ "'".

(** * Properties *)

(** ** The manager's check *)

(** C5: [check] maps the status of the response to exactly one of: 503,
    [ResultsNotReady]; 404, [ResultsExpired]; 2xx, the members of the body;
    anything else, the generic failure, raised as it is. *)
Theorem check_classifies_status (resp : Response) :
  (status_code resp = 503 ∧
     Memberships_check resp = inl (ResultsNotReady resp)) ∨
  (status_code resp = 404 ∧
     Memberships_check resp = inl (ResultsExpired resp)) ∨
  (200 ≤ status_code resp < 300 ∧
     Memberships_check resp = inr (response_members resp)) ∨
  (status_code resp ≠ 503 ∧ status_code resp ≠ 404 ∧
     ¬ (200 ≤ status_code resp < 300) ∧
     Memberships_check resp = inl (BadResponse resp)).
Proof.
  unfold Memberships_check.
  destruct (Z.eqb_spec (status_code resp) 503) as [->|H503]; [by left|].
  destruct (Z.eqb_spec (status_code resp) 404) as [->|H404]; [by right; left|].
  destruct (Z.leb_spec 200 (status_code resp)),
           (Z.ltb_spec (status_code resp) 300); simpl.
  - right; right; left. split; [lia|done].
  - right; right; right. repeat split; try done; lia.
  - right; right; right. repeat split; try done; lia.
  - right; right; right. repeat split; try done; lia.
Qed.

(** The three tests of [CheckMembershipTests]. *)
Example test_results_not_ready_yet :
  Memberships_check (mkResponse 503 []) = inl (ResultsNotReady (mkResponse 503 [])).
Proof. reflexivity. Qed.

Example test_results_expired :
  Memberships_check (mkResponse 404 []) = inl (ResultsExpired (mkResponse 404 [])).
Proof. reflexivity. Qed.

Example test_results_available :
  Memberships_check (mkResponse 200 [{[ "baz" := "qux" ]}]) =
    inr [{[ "baz" := "qux" ]}].
Proof. reflexivity. Qed.

(** ** Readiness *)

Lemma is_ready_when_ready self w :
  _is_ready self = true → is_ready self w = (Ret true, self, w).
Proof. unfold is_ready. by intros ->. Qed.

Lemma check_if_ready_expired self w rid resp rest :
  data self !! "results_id" = Some rid →
  server w = inl (ResultsExpired resp) :: rest →
  _check_if_ready self w =
    (Ret tt,
     set_expired_exception (Some (ResultsExpired resp)) (set_is_ready true self),
     mkWorld rest (trace w ++ [EvCheck rid])).
Proof.
  intros Hrid Hsrv. unfold _check_if_ready, Resource_getattr.
  by rewrite Hrid, Hsrv.
Qed.

Lemma check_if_ready_not_ready self w rid resp rest :
  data self !! "results_id" = Some rid →
  server w = inl (ResultsNotReady resp) :: rest →
  _check_if_ready self w =
    (Ret tt,
     set_not_ready_exception (Some (ResultsNotReady resp))
       (set_is_ready false self),
     mkWorld rest (trace w ++ [EvCheck rid])).
Proof.
  intros Hrid Hsrv. unfold _check_if_ready, Resource_getattr.
  by rewrite Hrid, Hsrv.
Qed.

(** C3: when the check made by [is_ready()] fails with [ResultsExpired],
    [is_ready()] makes the request [Expired], records the condition and
    returns true; [get()] on the request then raises that
    [ResultsExpired]. *)
Theorem is_ready_expired self w rid resp rest :
  _is_ready self = false →
  data self !! "results_id" = Some rid →
  server w = inl (ResultsExpired resp) :: rest →
  ∃ self',
    is_ready self w = (Ret true, self', mkWorld rest (trace w ++ [EvCheck rid])) ∧
    state_of self' = Expired ∧
    _expired_exception self' = Some (ResultsExpired resp) ∧
    get self' = Raise (ResultsExpired resp).
Proof.
  intros Hnr Hrid Hsrv. eexists. unfold is_ready. rewrite Hnr. simpl.
  rewrite (check_if_ready_expired _ _ _ _ _ Hrid Hsrv). simpl.
  by repeat split.
Qed.

Lemma is_ready_expired_witness :
  ∃ self',
    is_ready scenario_request (mkWorld [Memberships_check gone_response] []) =
      (Ret true, self', mkWorld [] ([] ++ [EvCheck "r1"])) ∧
    state_of self' = Expired ∧
    _expired_exception self' = Some (ResultsExpired gone_response) ∧
    get self' = Raise (ResultsExpired gone_response).
Proof.
  apply (is_ready_expired scenario_request
           (mkWorld [Memberships_check gone_response] []) "r1" gone_response []);
    reflexivity.
Defined.

(** C7: while the request is [Pending], each [is_ready()] whose check
    fails with [ResultsNotReady] makes exactly one check, returns false,
    records the condition and leaves the request [Pending]; so do any
    number of such calls in a row. *)
Theorem is_ready_not_ready_stays_pending (resps : list Response)
    self w rid rest :
  _is_ready self = false →
  data self !! "results_id" = Some rid →
  server w = ((inl ∘ ResultsNotReady <$> resps) ++ rest) →
  ∃ self',
    is_ready_times (length resps) self w =
      (replicate (length resps) (Ret false), self',
       mkWorld rest (trace w ++ replicate (length resps) (EvCheck rid))) ∧
    state_of self' = Pending ∧
    _not_ready_exception self' =
      match last resps with
      | Some resp => Some (ResultsNotReady resp)
      | None => _not_ready_exception self
      end ∧
    _expired_exception self' = _expired_exception self ∧
    results self' = results self.
Proof.
  revert self w.
  induction resps as [|resp resps IH]; intros self w Hnr Hrid Hsrv.
  - exists self. simpl in *. rewrite app_nil_r.
    unfold state_of. rewrite Hnr. destruct w; simpl in *; by subst.
  - simpl in Hsrv.
    set (self1 := set_not_ready_exception (Some (ResultsNotReady resp))
                    (set_is_ready false self)).
    set (w1 := mkWorld ((inl ∘ ResultsNotReady <$> resps) ++ rest)
                 (trace w ++ [EvCheck rid])).
    assert (Hstep : is_ready self w = (Ret false, self1, w1)).
    { unfold is_ready. rewrite Hnr. simpl.
      by rewrite (check_if_ready_not_ready _ _ _ _ _ Hrid Hsrv). }
    destruct (IH self1 w1) as (self' & Hrun & Hst & Hrec & Hexp & Hres);
      [done..|].
    exists self'. cbn [length is_ready_times]. rewrite Hstep, Hrun.
    repeat split.
    + simpl. rewrite <- (app_assoc (trace w) [EvCheck rid]). reflexivity.
    + exact Hst.
    + rewrite Hrec, (last_cons resp resps).
      by destruct (last resps).
    + exact Hexp.
    + exact Hres.
Qed.

Lemma is_ready_not_ready_stays_pending_witness :
  ∃ self',
    is_ready_times 2 scenario_request
      (mkWorld [Memberships_check not_ready_response;
                Memberships_check not_ready_response;
                Memberships_check ann_response] []) =
      ([Ret false; Ret false], self',
       mkWorld [Memberships_check ann_response]
               ([] ++ [EvCheck "r1"; EvCheck "r1"])) ∧
    state_of self' = Pending ∧
    _not_ready_exception self' = Some (ResultsNotReady not_ready_response) ∧
    _expired_exception self' = None ∧
    results self' = None.
Proof.
  apply (is_ready_not_ready_stays_pending
           [not_ready_response; not_ready_response] scenario_request
           (mkWorld [Memberships_check not_ready_response;
                     Memberships_check not_ready_response;
                     Memberships_check ann_response] [])
           "r1" [Memberships_check ann_response]);
    reflexivity.
Defined.

(** ** What a check can and cannot change *)

Lemma process_new_members_fields results' self o self' :
  _process_new_members results' self = (o, self') →
  _is_ready self' = _is_ready self ∧
  _expired_exception self' = _expired_exception self ∧
  _not_ready_exception self' = _not_ready_exception self ∧
  data self' = data self.
Proof.
  unfold _process_new_members.
  destruct (index_by_guid results' ∅) as [idx|e|]; [|by intros [= <- <-]..].
  destruct (reconcile _ _ idx [] []); by intros [= <- <-].
Qed.

Lemma check_if_ready_keeps_expired self w o self' w' :
  _check_if_ready self w = (o, self', w') →
  expired_recorded self → expired_recorded self'.
Proof.
  unfold _check_if_ready, Resource_getattr.
  destruct (data self !! "results_id") as [rid|]; [|by intros [= <- <- <-]].
  destruct (server w) as [|answer rest]; [by intros [= <- <- <-]|].
  destruct answer as [e|results'].
  - destruct e; intros [= <- <- <-]; try done.
    intros _. by eexists.
  - destruct (_process_new_members _ _) as [o1 self3] eqn:Hp.
    intros [= <- <- <-] Hexp.
    apply process_new_members_fields in Hp as (_ & Hp & _).
    unfold expired_recorded. by rewrite Hp.
Qed.

Lemma is_ready_keeps_expired self w o self' w' :
  is_ready self w = (o, self', w') →
  expired_recorded self → expired_recorded self'.
Proof.
  unfold is_ready. destruct (_is_ready self); simpl.
  - by intros [= <- <- <-].
  - destruct (_check_if_ready self w) as [[o1 self1] w1] eqn:Hc.
    intros Heq Hexp.
    assert (self' = self1) as -> by (destruct o1; by inversion Heq).
    eauto using check_if_ready_keeps_expired.
Qed.

Lemma poll_loop_keeps_expired start timeout interval clock :
  ∀ self w o self' w',
    poll_loop start timeout interval clock self w = (o, self', w') →
    expired_recorded self → expired_recorded self'.
Proof.
  induction clock as [|now clock IH]; intros self w o self' w'; simpl.
  - by intros [= <- <- <-].
  - destruct (now - start <? timeout); [|by intros [= <- <- <-]].
    destruct (is_ready self w) as [[o1 self1] w1] eqn:Hr.
    intros Heq Hexp.
    pose proof (is_ready_keeps_expired _ _ _ _ _ Hr Hexp) as Hexp1.
    destruct o1 as [ready|e|]; [|by inversion Heq; subst..].
    destruct ready; simpl in Heq; [by inversion Heq; subst|].
    destruct (sleep interval w1) as [[u|e|] w2];
      [|by inversion Heq; subst..].
    eauto.
Qed.

Lemma poll_keeps_expired timeout interval clock self w o self' w' :
  poll timeout interval clock self w = (o, self', w') →
  expired_recorded self → expired_recorded self'.
Proof.
  unfold poll. destruct clock as [|start clock]; [by intros [= <- <- <-]|].
  destruct (poll_loop start timeout interval clock self w)
    as [[o1 self1] w1] eqn:Hl.
  intros Heq Hexp.
  assert (self' = self1) as -> by (destruct o1; by inversion Heq).
  eauto using poll_loop_keeps_expired.
Qed.

Lemma run_ops_keeps_expired os : ∀ self w,
  expired_recorded self → expired_recorded (run_ops os (self, w)).1.
Proof.
  induction os as [|o os IH]; intros self w Hexp; [done|].
  unfold run_ops. simpl. fold (run_ops os).
  destruct o as [|timeout interval clock|]; simpl.
  - destruct (is_ready self w) as [[o1 self1] w1] eqn:Hr.
    apply IH. eauto using is_ready_keeps_expired.
  - destruct (poll timeout interval clock self w) as [[o1 self1] w1] eqn:Hp.
    apply IH. eauto using poll_keeps_expired.
  - by apply IH.
Qed.

(** A request that is ready is left alone by every public operation: no
    check, no delay, no change. *)
Lemma poll_loop_when_ready start timeout interval clock self w o self' w' :
  _is_ready self = true →
  poll_loop start timeout interval clock self w = (o, self', w') →
  self' = self ∧ w' = w.
Proof.
  intros Hr. destruct clock as [|now clock]; simpl.
  - by intros [= <- <- <-].
  - rewrite (is_ready_when_ready _ _ Hr). simpl.
    destruct (now - start <? timeout); by intros [= <- <- <-].
Qed.

Lemma run_ops_when_ready os : ∀ self w,
  _is_ready self = true → run_ops os (self, w) = (self, w).
Proof.
  induction os as [|o os IH]; intros self w Hr; [done|].
  unfold run_ops. simpl. fold (run_ops os).
  destruct o as [|timeout interval clock|]; simpl.
  - rewrite (is_ready_when_ready _ _ Hr). by apply IH.
  - unfold poll. destruct clock as [|start clock]; [by apply IH|].
    destruct (poll_loop start timeout interval clock self w)
      as [[o1 self1] w1] eqn:Hl.
    apply (poll_loop_when_ready _ _ _ _ _ _ _ _ _ Hr) in Hl as [-> ->].
    destruct o1; by apply IH.
  - by apply IH.
Qed.

(** C4: once the expired condition is recorded, [get()] raises
    [ResultsExpired] after any sequence of public operations; and no such
    sequence takes a request that is [Ready] or [Expired] back to
    [Pending]: it stays in the state it is in. *)
Theorem expired_is_sticky (os : list op) self w :
  (expired_recorded self →
     ∃ resp, get (run_ops os (self, w)).1 = Raise (ResultsExpired resp)) ∧
  (state_of self ≠ Pending →
     state_of (run_ops os (self, w)).1 = state_of self ∧
     state_of (run_ops os (self, w)).1 ≠ Pending).
Proof.
  split.
  - intros Hexp.
    destruct (run_ops_keeps_expired os self w Hexp) as [resp Hresp].
    exists resp. unfold get. by rewrite Hresp.
  - intros Hst.
    assert (_is_ready self = true) as Hr.
    { unfold state_of in Hst. by destruct (_is_ready self). }
    by rewrite (run_ops_when_ready os self w Hr).
Qed.

Lemma expired_is_sticky_witness :
  let os := [OpIsReady; OpPoll 30 2 [0; 1; 31]; OpGet; OpIsReady] in
  let w := mkWorld [Memberships_check ann_response] [] in
  (∃ resp, get (run_ops os (expired_request, w)).1 = Raise (ResultsExpired resp)) ∧
  state_of (run_ops os (expired_request, w)).1 = state_of expired_request ∧
  state_of (run_ops os (expired_request, w)).1 ≠ Pending.
Proof.
  pose proof (expired_is_sticky
                [OpIsReady; OpPoll 30 2 [0; 1; 31]; OpGet; OpIsReady]
                expired_request
                (mkWorld [Memberships_check ann_response] [])) as [Hget Hstate].
  split.
  - apply Hget. exists gone_response. reflexivity.
  - apply Hstate. discriminate.
Defined.

(** ** Polling *)

(** C8: [poll] with [timeout = 0] returns [get()] at once: no delay and no
    check at all (so at most one), provided the clock does not run
    backwards between the two readings it takes. *)
Theorem poll_zero_timeout interval start now clock self w :
  start ≤ now →
  poll 0 interval (start :: now :: clock) self w = (get self, self, w) ∧
  let w' := (poll 0 interval (start :: now :: clock) self w).2 in
  (checks (trace w') ≤ checks (trace w) + 1)%nat ∧
  sleeps (trace w') = sleeps (trace w).
Proof.
  intros Hclock.
  assert (poll 0 interval (start :: now :: clock) self w = (get self, self, w))
    as Hpoll.
  { unfold poll, poll_loop.
    destruct (Z.ltb_spec (now - start) 0) as [Hlt|_]; [lia|done]. }
  rewrite Hpoll. simpl. split; [done|]. split; [lia|done].
Qed.

Lemma poll_zero_timeout_witness :
  poll 0 2 [100; 100; 102] scenario_request
       (mkWorld [Memberships_check ann_response] []) =
    (get scenario_request, scenario_request,
     mkWorld [Memberships_check ann_response] []) ∧
  let w' := (poll 0 2 [100; 100; 102] scenario_request
               (mkWorld [Memberships_check ann_response] [])).2 in
  (checks (trace w') ≤ checks [] + 1)%nat ∧ sleeps (trace w') = sleeps [].
Proof.
  apply (poll_zero_timeout 2 100 100 [102] scenario_request
           (mkWorld [Memberships_check ann_response] [])).
  lia.
Defined.

(** Were the second reading earlier than the first, as after the system
    clock is set back, the loop body would run. *)
Example poll_zero_timeout_clock_set_back :
  poll 0 2 [100; 99; 100] scenario_request
       (mkWorld [Memberships_check not_ready_response] []) =
    (Raise (ResultsNotReady not_ready_response), not_ready_request,
     mkWorld [] [EvCheck "r1"; EvSleep 2]).
Proof. reflexivity. Qed.

Lemma is_ready_inv self w b self' w' :
  is_ready self w = (Ret b, self', w') →
  b = _is_ready self' ∧
  server w' = (if _is_ready self then server w else tail (server w)) ∧
  ((_is_ready self = true ∧ self' = self ∧ w' = w) ∨
   (_is_ready self = false ∧ ∃ rid, trace w' = (trace w ++ [EvCheck rid]))).
Proof.
  unfold is_ready. destruct (_is_ready self) eqn:Hr; simpl.
  - intros [= <- <- <-]. rewrite Hr. split; [done|]. split; [done|]. by left.
  - unfold _check_if_ready, Resource_getattr.
    destruct (data self !! "results_id") as [rid|]; [|discriminate].
    destruct (server w) as [|answer rest]; [discriminate|].
    destruct answer as [e|results'].
    + destruct e; intros [= <- <- <-]; simpl;
        (split; [done|]; split; [done|]; right; split; [done|]; by exists rid).
    + destruct (_process_new_members _ _) as [o1 self3] eqn:Hp.
      destruct o1; intros [= <- <- <-]; simpl.
      split; [done|]. split; [done|]. right. split; [done|]. by exists rid.
Qed.

Lemma sleep_inv interval w u w' :
  sleep interval w = (Ret u, w') →
  0 ≤ interval ∧ w' = mkWorld (server w) (trace w ++ [EvSleep interval]).
Proof.
  unfold sleep. destruct (Z.ltb_spec interval 0); [discriminate|].
  intros [= <- <-]. done.
Qed.

(** The loop of the code does what the specification's words say ... *)
Lemma poll_run_loop start timeout interval clock self w o self' w' :
  poll_run start timeout interval clock self w o self' w' →
  poll_loop start timeout interval clock self w = (Ret tt, self', w') ∧
  o = get self'.
Proof.
  induction 1 as [now clock self w Hto
                 |now clock self w self' w' Hlt Hr
                 |now clock self w self1 w1 w2 o self' w' Hlt Hr Hs _ IH];
    simpl.
  - destruct (Z.ltb_spec (now - start) timeout); [lia|done].
  - destruct (Z.ltb_spec (now - start) timeout); [|lia]. by rewrite Hr.
  - destruct (Z.ltb_spec (now - start) timeout); [|lia].
    rewrite Hr. simpl. rewrite Hs. exact IH.
Qed.

(** ... and nothing else: every normal exit of the loop is such a run. *)
Lemma poll_loop_run start timeout interval clock :
  ∀ self w u self' w',
    poll_loop start timeout interval clock self w = (Ret u, self', w') →
    poll_run start timeout interval clock self w (get self') self' w'.
Proof.
  induction clock as [|now clock IH]; intros self w u self' w'; simpl;
    [discriminate|].
  destruct (Z.ltb_spec (now - start) timeout) as [Hlt|Hge].
  - destruct (is_ready self w) as [[o1 self1] w1] eqn:Hr.
    destruct o1 as [ready|e|]; [|discriminate..].
    destruct ready; simpl.
    + intros [= <- <- <-]. by apply poll_became_ready.
    + destruct (sleep interval w1) as [[[]|e|] w2] eqn:Hs; [|discriminate..].
      intros Hl. eapply poll_suspend; eauto.
  - intros [= <- <- <-]. by apply poll_timed_out.
Qed.

Lemma poll_run_exit start timeout interval clock self w o self' w' :
  poll_run start timeout interval clock self w o self' w' →
  _is_ready self' = true ∨ ∃ now, now ∈ clock ∧ timeout ≤ now - start.
Proof.
  induction 1 as [now clock self w Hto
                 |now clock self w self' w' Hlt Hr
                 |now clock self w self1 w1 w2 o self' w' Hlt Hr Hs _ IH].
  - right. exists now. split; [left|done].
  - left. by apply is_ready_inv in Hr as [<- _].
  - destruct IH as [?|(now' & ? & ?)]; [by left|].
    right. exists now'. split; [by right|done].
Qed.

Lemma poll_run_events start timeout interval clock self w o self' w' :
  poll_run start timeout interval clock self w o self' w' →
  ∃ evs, trace w' = (trace w ++ evs) ∧ poll_events interval evs.
Proof.
  induction 1 as [now clock self w Hto
                 |now clock self w self' w' Hlt Hr
                 |now clock self w self1 w1 w2 o self' w' Hlt Hr Hs _ IH].
  - exists []. rewrite app_nil_r. split; [done|constructor].
  - apply is_ready_inv in Hr as (_ & _ & [(_ & _ & ->)|(_ & rid & ->)]).
    + exists []. rewrite app_nil_r. split; [done|constructor].
    + exists [EvCheck rid]. split; [done|constructor].
  - apply is_ready_inv in Hr as (Hb & _ & [(Hr & -> & _)|(_ & rid & Hw1)]).
    { congruence. }
    apply sleep_inv in Hs as [_ ->]. simpl in IH.
    destruct IH as (evs & -> & Hevs). rewrite Hw1.
    exists (EvCheck rid :: EvSleep interval :: evs). split.
    + by rewrite <- !app_assoc.
    + by constructor.
Qed.

(** C6: [poll] loops while the elapsed time is below [timeout] and
    [is_ready()] is false, suspending for [interval] between checks; when
    the loop ends, by timeout or by readiness, it returns what [get()]
    gives.  That is [ResultsNotReady] when the last check said so, which is
    never a [ResultsExpired]. *)
Theorem poll_loops_then_gets start timeout interval clock self w o self' w' :
  poll_run start timeout interval clock self w o self' w' →
  poll timeout interval (start :: clock) self w = (o, self', w') ∧
  o = get self' ∧
  (_is_ready self' = true ∨ ∃ now, now ∈ clock ∧ timeout ≤ now - start) ∧
  (∃ evs, trace w' = (trace w ++ evs) ∧ poll_events interval evs) ∧
  (∀ resp,
     _expired_exception self' = None →
     _not_ready_exception self' = Some (ResultsNotReady resp) →
     o = Raise (ResultsNotReady resp) ∧
     ∀ resp', o ≠ Raise (ResultsExpired resp')).
Proof.
  intros Hrun.
  destruct (poll_run_loop _ _ _ _ _ _ _ _ _ Hrun) as [Hloop ->].
  split; [|split; [done|split; [|split]]].
  - unfold poll. by rewrite Hloop.
  - eauto using poll_run_exit.
  - eauto using poll_run_events.
  - intros resp Hexp Hnr. unfold get. rewrite Hexp, Hnr. split; [done|].
    intros resp'. discriminate.
Qed.

Lemma poll_loops_then_gets_witness :
  poll 30 2 [0; 1; 31] scenario_request
       (mkWorld [Memberships_check not_ready_response] []) =
    (Raise (ResultsNotReady not_ready_response), not_ready_request,
     mkWorld [] [EvCheck "r1"; EvSleep 2]) ∧
  Raise (ResultsNotReady not_ready_response) = get not_ready_request ∧
  (_is_ready not_ready_request = true ∨
   ∃ now, now ∈ [1; 31] ∧ 30 ≤ now - 0) ∧
  (∃ evs, [EvCheck "r1"; EvSleep 2] = ([] ++ evs) ∧ poll_events 2 evs) ∧
  (∀ resp,
     _expired_exception not_ready_request = None →
     _not_ready_exception not_ready_request = Some (ResultsNotReady resp) →
     @Raise (option Results) (ResultsNotReady not_ready_response) =
       Raise (ResultsNotReady resp) ∧
     ∀ resp', @Raise (option Results) (ResultsNotReady not_ready_response) ≠
                Raise (ResultsExpired resp')).
Proof.
  apply (poll_loops_then_gets 0 30 2 [1; 31] scenario_request
           (mkWorld [Memberships_check not_ready_response] [])
           (Raise (ResultsNotReady not_ready_response)) not_ready_request
           (mkWorld [] [EvCheck "r1"; EvSleep 2])).
  eapply poll_suspend; [lia|reflexivity|reflexivity|].
  apply (poll_timed_out 0 30 2 31 [] not_ready_request
           (mkWorld [] [EvCheck "r1"; EvSleep 2])).
  lia.
Defined.

(** ** The representation of a member *)

(** C10, as the code has it: [Member.__repr__] reads [user_id] and
    [nickname] from the member's data, and nothing else; a field
    [nicknack] makes no difference to it. *)
Theorem Member_repr_reads_nickname (py_repr : value → string) (m : Member)
    (uid : value) :
  member_data m !! "user_id" = Some uid →
  Member_repr py_repr m =
    match member_data m !! "nickname" with
    | Some nick =>
        Ret ("<Member(user_id=" +:+ py_repr uid +:+ ", nickname="
               +:+ py_repr nick +:+ ")>")
    | None => Raise (AttributeError "Member" "nickname")
    end ∧
  ∀ m', member_manager m' = member_manager m →
        delete "nicknack" (member_data m') = delete "nicknack" (member_data m) →
        Member_repr py_repr m' = Member_repr py_repr m.
Proof.
  intros Huid. split.
  - unfold Member_repr, Resource_getattr. rewrite Huid. simpl.
    by destruct (member_data m !! "nickname").
  - intros m' _ Hdata. unfold Member_repr, Resource_getattr.
    assert (∀ k, k ≠ "nicknack" → member_data m' !! k = member_data m !! k)
      as Hk.
    { intros k Hne.
      rewrite <- (lookup_delete_ne (member_data m') "nicknack" k) by done.
      rewrite Hdata. by apply lookup_delete_ne. }
    by rewrite !Hk.
Qed.

Lemma Member_repr_reads_nickname_witness :
  Member_repr quoted ann_member =
    match member_data ann_member !! "nickname" with
    | Some nick =>
        Ret ("<Member(user_id=" +:+ quoted "u1" +:+ ", nickname="
               +:+ quoted nick +:+ ")>")
    | None => Raise (AttributeError "Member" "nickname")
    end ∧
  ∀ m', member_manager m' = member_manager ann_member →
        delete "nicknack" (member_data m') =
          delete "nicknack" (member_data ann_member) →
        Member_repr quoted m' = Member_repr quoted ann_member.
Proof.
  apply (Member_repr_reads_nickname quoted ann_member "u1").
  reflexivity.
Defined.

(** The member of the tests, built from [get_fake_member_data()], has a
    [nicknack] and no [nickname]: its representation cannot be rendered,
    for want of the [nickname] that [__repr__] reads.  With a [nickname]
    it is rendered, and the [nicknack] does not show. *)
Lemma Member_repr_does_not_read_nicknack :
  (∃ m, Member_init a_manager fake_member_data = Ret m ∧
        member_data m !! "nicknack" = Some "nick" ∧
        Member_repr quoted m = Raise (AttributeError "Member" "nickname")) ∧
  (∃ m, Member_init a_manager (<[ "nickname" := "Ann" ]> fake_member_data) = Ret m ∧
        member_data m !! "nicknack" = Some "nick" ∧
        Member_repr quoted m = Ret "<Member(user_id='baz', nickname='Ann')>").
Proof. split; eexists; (split; [reflexivity|split; reflexivity]). Qed.

(** ** Scenario A *)

(** C2, as the code runs it: the request is made for Ann, the first check
    is answered 503 and [is_ready()] is false; the second is answered with
    Ann's record, [{guid, id, user_id}].  Building the [Member] from that
    record raises [TypeError], the record naming no [group_id]:
    [is_ready()] raises instead of returning true, the request is left
    ready with no results, and [get()] returns [None]. *)
Theorem scenario_A_second_check_raises :
  let w0 := mkWorld [Memberships_check not_ready_response;
                     Memberships_check ann_response] [] in
  let w1 := mkWorld [Memberships_check ann_response] [EvCheck "r1"] in
  let w2 := mkWorld [] [EvCheck "r1"; EvCheck "r1"] in
  let self2 := set_not_ready_exception None (set_is_ready true not_ready_request) in
  MembershipRequest_init a_manager [ann_request] {[ "results_id" := "r1" ]} =
    Ret scenario_request ∧
  is_ready scenario_request w0 = (Ret false, not_ready_request, w1) ∧
  Member_init a_manager (delete "guid" ann_returned) = Raise TypeError ∧
  is_ready not_ready_request w1 = (Raise TypeError, self2, w2) ∧
  _is_ready self2 = true ∧ results self2 = None ∧
  get self2 = Ret None.
Proof. repeat split; reflexivity. Qed.

(** What the scenario expects is what happens when the returned record
    names its group as well. *)
Example scenario_A_with_group_id :
  let w1 := mkWorld [Memberships_check (mkResponse 200 [ann_returned_in_group])]
                    [EvCheck "r1"] in
  ∃ self2 w2,
    is_ready not_ready_request w1 = (Ret true, self2, w2) ∧
    get self2 = Ret (Some (mkResults [ann_member] [])).
Proof. do 2 eexists. split; reflexivity. Qed.

(** [Group.__init__] builds its members with the group's id passed
    beside the record, and so from records that do not name it. *)
Example Member_init_positional_without_group_id :
  Member_init_positional a_manager (group_id a_manager)
    (delete "guid" ann_returned) = Ret ann_member.
Proof. reflexivity. Qed.

(** ** Reconciliation *)

Lemma elem_of_guids g (l : list record) :
  g ∈ guids l ↔ ∃ rec, rec ∈ l ∧ rec !! "guid" = Some g.
Proof. apply list_elem_of_omap. Qed.

Lemma guids_cons_Some (rec : record) l g :
  rec !! "guid" = Some g → guids (rec :: l) = g :: guids l.
Proof. intros Hg. unfold guids. simpl. by rewrite Hg. Qed.

Lemma guids_cons_None (rec : record) l :
  rec !! "guid" = None → guids (rec :: l) = guids l.
Proof. intros Hg. unfold guids. simpl. by rewrite Hg. Qed.

Lemma Member_init_member_fields mgr (rec : record) :
  member_fields rec → ∃ m, Member_init mgr (delete "guid" rec) = Ret m.
Proof.
  intros ([gid Hgid] & [uid Huid] & Hself & Hmgr).
  unfold Member_init, kwargs_clash, Resource_getattr.
  rewrite !lookup_delete_ne by done.
  rewrite Hself, Hmgr, Hgid, Huid. simpl. by eexists.
Qed.

(** *** The index *)

Lemma index_by_guid_app (l1 l2 : list record) : ∀ idx,
  index_by_guid (l1 ++ l2) idx = index_by_guid l1 idx ≫= index_by_guid l2.
Proof.
  induction l1 as [|member l1 IH]; intros idx; simpl; [done|].
  destruct (member !! "guid"); [apply IH|done].
Qed.

Lemma index_by_guid_spec (l : list record) : ∀ idx,
  Forall (λ rec : record, is_Some (rec !! "guid")) l →
  ∃ idx', index_by_guid l idx = Ret idx' ∧
    (∀ g, is_Some (idx' !! g) ↔ g ∈ guids l ∨ is_Some (idx !! g)) ∧
    (∀ g rec, idx' !! g = Some rec →
       (rec ∈ l ∧ rec !! "guid" = Some g) ∨ idx !! g = Some rec).
Proof.
  induction l as [|member l IH]; intros idx Hall.
  - exists idx. split; [done|]. split.
    + intros g. unfold guids. simpl. rewrite elem_of_nil. tauto.
    + intros g rec Hl. by right.
  - apply Forall_cons in Hall as [[g0 Hg0] Hall].
    destruct (IH (<[g0 := member]> idx) Hall) as (idx' & Hrun & Hdom & Hin).
    exists idx'. split; [simpl; by rewrite Hg0|]. split.
    + intros g. rewrite Hdom, (guids_cons_Some _ _ _ Hg0), elem_of_cons.
      rewrite lookup_insert_is_Some.
      destruct (decide (g0 = g)); intuition congruence.
    + intros g rec Hl. destruct (Hin g rec Hl) as [[Hrec Hg]|Hins].
      * left. split; [by right|done].
      * destruct (decide (g0 = g)) as [->|Hne].
        -- rewrite lookup_insert_eq in Hins. injection Hins as <-.
           left. split; [by left|done].
        -- rewrite lookup_insert_ne in Hins by done. by right.
Qed.

Lemma index_by_guid_agree (l : list record) : ∀ idx1 idx2 i1,
  index_by_guid l idx1 = Ret i1 →
  ∃ i2, index_by_guid l idx2 = Ret i2 ∧
        ∀ g, idx1 !! g = idx2 !! g → i1 !! g = i2 !! g.
Proof.
  induction l as [|member l IH]; intros idx1 idx2 i1; simpl.
  - intros [= <-]. by exists idx2.
  - destruct (member !! "guid") as [g0|]; [|discriminate].
    intros Hrun.
    destruct (IH _ (<[g0 := member]> idx2) _ Hrun) as (i2 & Hrun2 & Hagree).
    exists i2. split; [done|]. intros g Hg. apply Hagree.
    destruct (decide (g0 = g)) as [->|Hne].
    + by rewrite !lookup_insert_eq.
    + by rewrite !lookup_insert_ne.
Qed.

(** *** The loop over the requests *)

Lemma lookup_request_Some idx (request : record) g rec :
  lookup_request idx request = Some (g, rec) ↔
  request !! "guid" = Some g ∧ idx !! g = Some rec.
Proof.
  unfold lookup_request.
  destruct (request !! "guid") as [g'|]; simpl; [|intuition congruence].
  destruct (idx !! g') as [rec'|] eqn:Hl; simpl; intuition congruence.
Qed.

Lemma lookup_request_None idx (request : record) :
  lookup_request idx request = None ↔
  ∀ g, request !! "guid" = Some g → idx !! g = None.
Proof.
  unfold lookup_request.
  destruct (request !! "guid") as [g'|]; simpl; [|by split].
  destruct (idx !! g') as [rec'|] eqn:Hl; simpl.
  - split; [discriminate|]. intros Hnone. specialize (Hnone g' eq_refl).
    congruence.
  - split; [|done]. by intros _ g [= <-].
Qed.

(** Two indexes that hold the same record for every guid requested give
    the same result: what else they hold is never looked at. *)
Lemma reconcile_agree mgr (requests : list record) : ∀ idx1 idx2 ms fs,
  (∀ request g, request ∈ requests → request !! "guid" = Some g →
                idx1 !! g = idx2 !! g) →
  reconcile mgr requests idx1 ms fs = reconcile mgr requests idx2 ms fs.
Proof.
  induction requests as [|request rest IH]; intros idx1 idx2 ms fs Hagree;
    simpl; [done|].
  assert (lookup_request idx1 request = lookup_request idx2 request) as Hl.
  { unfold lookup_request.
    destruct (request !! "guid") as [g|] eqn:Hg; simpl; [|done].
    rewrite (Hagree request g); [done|by left|done]. }
  rewrite <- Hl.
  destruct (lookup_request idx1 request) as [[g member_data]|].
  - destruct (member_data !! "guid"); [|done].
    destruct (Member_init mgr (delete "guid" member_data)); [|done..].
    apply IH. intros request' g' Hin Hg'.
    destruct (decide (g = g')) as [->|Hne].
    + by rewrite !lookup_insert_eq.
    + rewrite !lookup_insert_ne by done. apply (Hagree request'); [by right|done].
  - apply IH. intros request' g' Hin Hg'.
    apply (Hagree request'); [by right|done].
Qed.

Lemma guid_in_iff returned (request : record) :
  guid_in returned request ↔
  ∃ g, request !! "guid" = Some g ∧ g ∈ guids returned.
Proof.
  unfold guid_in. destruct (request !! "guid") as [g|].
  - split; [by exists g|]. by intros (g' & [= <-] & Hin).
  - split; [done|]. by intros (g' & [=] & _).
Qed.

(** The loop, from any point of its run: [idx] holds a record for exactly
    the guids returned, and for each request still to come the record as
    it was returned. *)
Lemma reconcile_spec mgr (returned : list record) :
  ∀ (requests : list record) idx (ms : list Member) (fs : list record),
    (∀ g, is_Some (idx !! g) ↔ g ∈ guids returned) →
    (∀ request g rec,
       request ∈ requests → request !! "guid" = Some g → idx !! g = Some rec →
       rec ∈ returned ∧ rec !! "guid" = Some g ∧ member_fields rec) →
    NoDup (guids (filter (guid_in returned) requests)) →
    ∃ ms',
      reconcile mgr requests idx ms fs =
        Ret (mkResults (ms ++ ms')
               (fs ++ filter (λ request, ¬ guid_in returned request) requests)) ∧
      Forall2 (answers mgr returned) ms' (filter (guid_in returned) requests).
Proof.
  induction requests as [|request rest IH]; intros idx ms fs Hdom Hrec Hnodup.
  - exists []. simpl. rewrite !app_nil_r. split; [done|constructor].
  - simpl. destruct (lookup_request idx request) as [[g rec]|] eqn:Hl.
    + apply lookup_request_Some in Hl as [Hg Hidx].
      destruct (Hrec request g rec) as (Hin & Hguid & Hfields);
        [by left|done..|].
      assert (guid_in returned request) as Hmatched.
      { apply guid_in_iff. exists g. split; [done|]. apply Hdom. by eexists. }
      rewrite (filter_cons_True _ _ _ Hmatched) in Hnodup |- *.
      rewrite filter_cons_False by (intros Hn; by apply Hn).
      rewrite (guids_cons_Some _ _ _ Hg) in Hnodup.
      apply NoDup_cons in Hnodup as [Hfresh Hnodup].
      rewrite Hguid.
      destruct (Member_init_member_fields mgr rec Hfields) as [m Hm].
      rewrite Hm.
      assert (∀ request', request' ∈ rest → request' !! "guid" ≠ Some g)
        as Hother.
      { intros request' Hin' Hg'. apply Hfresh. apply elem_of_guids.
        exists request'. split; [|done]. apply list_elem_of_filter.
        split; [|done]. apply guid_in_iff. exists g. split; [done|].
        apply Hdom. by eexists. }
      destruct (IH (<[g := delete "guid" rec]> idx) (ms ++ [m]) fs)
        as (ms' & Hrun & Hall).
      * intros g'. rewrite <- Hdom, lookup_insert_is_Some.
        destruct (decide (g = g')) as [<-|]; [|tauto].
        split; [intros _; by eexists|by left].
      * intros request' g' rec' Hin' Hg' Hidx'.
        assert (g ≠ g') as Hne.
        { intros <-. by apply (Hother request'). }
        rewrite lookup_insert_ne in Hidx' by done.
        apply (Hrec request'); [by right|done..].
      * done.
      * exists (m :: ms'). rewrite Hrun, <- app_assoc. split; [done|].
        constructor; [|done]. by exists g, rec.
    + assert (¬ guid_in returned request) as Hunmatched.
      { rewrite guid_in_iff. intros (g & Hg & Hret).
        apply Hdom in Hret as [rec Hidx].
        rewrite lookup_request_None in Hl. specialize (Hl g Hg). congruence. }
      rewrite (filter_cons_False _ _ _ Hunmatched) in Hnodup |- *.
      rewrite filter_cons_True by done.
      destruct (IH idx ms (fs ++ [request])) as (ms' & Hrun & Hall);
        [done| |done|].
      * intros request' g' rec' Hin'. apply Hrec. by right.
      * exists ms'. rewrite Hrun, <- app_assoc. by split.
Qed.

(** What reconciliation does for the records a [Member] can be built
    from.  Let every returned record bear a guid, let no two requests
    that are answered share a guid, and let every returned record that
    answers a request name its group and its user.
    Then reconciliation splits the requests into members and failures:
    as many as were requested; the members answer, one by one and in the
    order of submission, the requests whose guid was returned; the
    failures are the other requests, unchanged and in the order of
    submission; and a returned record whose guid nobody requested changes
    nothing. *)
Theorem reconciliation_partitions (returned : list record)
    (self : MembershipRequest) :
  Forall (λ rec : record, is_Some (rec !! "guid")) returned →
  NoDup (guids (filter (guid_in returned) (_requests self))) →
  (∀ rec g, rec ∈ returned → rec !! "guid" = Some g →
            g ∈ guids (_requests self) → member_fields rec) →
  ∃ ms fs,
    _process_new_members returned self =
      (Ret tt, set_results (Some (mkResults ms fs)) self) ∧
    (length ms + length fs = length (_requests self))%nat ∧
    Forall2 (answers (manager self) returned) ms
            (filter (guid_in returned) (_requests self)) ∧
    fs = filter (λ request, ¬ guid_in returned request) (_requests self) ∧
    ∀ l1 stray l2,
      returned = l1 ++ stray :: l2 →
      (∀ request, request ∈ _requests self →
                  request !! "guid" ≠ stray !! "guid") →
      _process_new_members (l1 ++ l2) self = _process_new_members returned self.
Proof.
  intros Hguid Hnodup Hfields.
  destruct (index_by_guid_spec returned ∅ Hguid) as (idx & Hidx & Hdom & Hin).
  destruct (reconcile_spec (manager self) returned (_requests self) idx [] [])
    as (ms & Hrun & Hall).
  { intros g. rewrite Hdom, lookup_empty. split; [|by left].
    intros [?|[? [=]]]; done. }
  { intros request g rec Hreq Hg Hl.
    destruct (Hin g rec Hl) as [[Hrec Hrg]|Hempty];
      [|by rewrite lookup_empty in Hempty].
    split; [done|]. split; [done|].
    apply (Hfields rec g); [done..|]. apply elem_of_guids. by exists request. }
  { done. }
  simpl in Hrun.
  exists ms, (filter (λ request, ¬ guid_in returned request) (_requests self)).
  split; [|split; [|split; [done|split; [done|]]]].
  - unfold _process_new_members. by rewrite Hidx, Hrun.
  - rewrite (Forall2_length _ _ _ Hall), <- length_app.
    by rewrite filter_app_complement.
  - intros l1 stray l2 -> Hstray.
    unfold _process_new_members. rewrite Hidx.
    rewrite index_by_guid_app in Hidx |- *.
    destruct (index_by_guid l1 ∅) as [i1| |]; simpl in Hidx |- *;
      [|discriminate..].
    destruct (stray !! "guid") as [gs|] eqn:Hgs; [|discriminate].
    destruct (index_by_guid_agree l2 _ i1 _ Hidx) as (idx' & -> & Hagree).
    rewrite (reconcile_agree (manager self) (_requests self) idx' idx); [done|].
    intros request g Hreq Hg. symmetry. apply Hagree.
    apply lookup_insert_ne. intros ->. by apply (Hstray request).
Qed.

Lemma reconciliation_partitions_witness :
  let returned := [ann_returned_in_group; stray_returned] in
  ∃ ms fs,
    _process_new_members returned batch_request =
      (Ret tt, set_results (Some (mkResults ms fs)) batch_request) ∧
    (length ms + length fs = length (_requests batch_request))%nat ∧
    Forall2 (answers (manager batch_request) returned) ms
            (filter (guid_in returned) (_requests batch_request)) ∧
    fs = filter (λ request, ¬ guid_in returned request)
                (_requests batch_request) ∧
    ∀ l1 stray l2,
      returned = l1 ++ stray :: l2 →
      (∀ request, request ∈ _requests batch_request →
                  request !! "guid" ≠ stray !! "guid") →
      _process_new_members (l1 ++ l2) batch_request =
        _process_new_members returned batch_request.
Proof.
  apply (reconciliation_partitions
           [ann_returned_in_group; stray_returned] batch_request).
  - repeat constructor; by eexists.
  - vm_compute. repeat constructor; set_solver.
  - intros rec g Hrec Hg Hreq.
    apply elem_of_cons in Hrec as [->|Hrec].
    + repeat split; by eexists.
    + apply list_elem_of_singleton in Hrec as ->.
      vm_compute in Hg. injection Hg as <-.
      change (guids (_requests batch_request)) with ["g1"; "g2"] in Hreq.
      rewrite !elem_of_cons, elem_of_nil in Hreq. intuition discriminate.
Defined.

(** What this batch comes to: Ann is a member, Bea a failure. *)
Example reconciliation_of_the_batch :
  _process_new_members [ann_returned_in_group; stray_returned] batch_request =
    (Ret tt,
     set_results (Some (mkResults [ann_member] [bea_request])) batch_request).
Proof. reflexivity. Qed.

(** Asked twice for the guid that is returned once, reconciliation raises
    [KeyError]: the first request took the [guid] out of the returned
    record, and the second finds none to take.  Answered by a record that
    bears the guid and names no group, it raises [TypeError].  Neither run
    sets [results]. *)
Lemma reconciliation_raises :
  (Forall (λ rec : record, is_Some (rec !! "guid")) [ann_returned_in_group] ∧
   _process_new_members [ann_returned_in_group] twice_request =
     (Raise (KeyError "guid"), twice_request)) ∧
  (Forall (λ rec : record, is_Some (rec !! "guid")) [ann_returned] ∧
   _process_new_members [ann_returned] scenario_request =
     (Raise TypeError, scenario_request)).
Proof.
  split; (split; [repeat constructor; by eexists|reflexivity]).
Qed.

(** C1, at Scenario B of the specification: Ann and Bea are requested, and
    the server returns Ann's record, [{guid, id, user_id}].  Ann's guid is
    returned and Bea's is not, so the partition has Ann among the members
    and Bea among the failures.  The code raises [TypeError] while it
    builds Ann's [Member]: the record names no [group_id], and the call
    passes none.  No results are set.  Passed the manager's group beside
    the record, as [Group.__init__] passes it, the constructor builds the
    member. *)
Theorem reconciliation_scenario_B_raises :
  Forall (λ rec : record, is_Some (rec !! "guid")) [ann_returned] ∧
  filter (guid_in [ann_returned]) (_requests batch_request) = [ann_request] ∧
  filter (λ request, ¬ guid_in [ann_returned] request)
         (_requests batch_request) = [bea_request] ∧
  Member_init (manager batch_request) (delete "guid" ann_returned) =
    Raise TypeError ∧
  _process_new_members [ann_returned] batch_request =
    (Raise TypeError, batch_request) ∧
  results batch_request = None ∧
  Member_init_positional (manager batch_request)
    (group_id (manager batch_request)) (delete "guid" ann_returned) =
    Ret ann_member.
Proof.
  split; [repeat constructor; by eexists|].
  repeat split; reflexivity.
Qed.

(** ** A request that was never checked *)

Lemma checks_snoc_check t rid : checks (t ++ [EvCheck rid]) = S (checks t).
Proof. unfold checks. rewrite List.filter_app, length_app. simpl. lia. Qed.

Lemma checks_snoc_sleep t interval : checks (t ++ [EvSleep interval]) = checks t.
Proof. unfold checks. rewrite List.filter_app, length_app. simpl. lia. Qed.

(** A call of [is_ready()] either leaves everything as it was or makes
    one check. *)
Lemma is_ready_trace self w o self' w' :
  is_ready self w = (o, self', w') →
  (self' = self ∧ w' = w) ∨ ∃ rid, trace w' = trace w ++ [EvCheck rid].
Proof.
  unfold is_ready. destruct (_is_ready self); simpl.
  { intros [= <- <- <-]. by left. }
  unfold _check_if_ready, Resource_getattr.
  destruct (data self !! "results_id") as [rid|];
    [|intros [= <- <- <-]; by left].
  destruct (server w) as [|answer rest]; [intros [= <- <- <-]; by left|].
  intros Hrun. right. exists rid.
  destruct answer as [e|results'].
  - destruct e; by injection Hrun as <- <- <-.
  - destruct (_process_new_members _ _) as [o1 self3].
    destruct o1; by injection Hrun as <- <- <-.
Qed.

Lemma sleep_checks interval w o w' :
  sleep interval w = (o, w') → checks (trace w') = checks (trace w).
Proof.
  unfold sleep. destruct (interval <? 0); intros [= <- <-]; [done|].
  apply checks_snoc_sleep.
Qed.

Lemma poll_loop_checks start timeout interval clock :
  ∀ self w o self' w',
    poll_loop start timeout interval clock self w = (o, self', w') →
    (checks (trace w) ≤ checks (trace w'))%nat ∧
    (checks (trace w') = checks (trace w) → self' = self).
Proof.
  induction clock as [|now clock IH]; intros self w o self' w'; simpl.
  { by intros [= <- <- <-]. }
  destruct (now - start <? timeout); [|by intros [= <- <- <-]].
  destruct (is_ready self w) as [[o1 self1] w1] eqn:Hr.
  assert ((self1 = self ∧ checks (trace w1) = checks (trace w)) ∨
          checks (trace w1) = S (checks (trace w))) as Hstep.
  { destruct (is_ready_trace _ _ _ _ _ Hr) as [[-> ->]|[rid ->]];
      [by left|right; apply checks_snoc_check]. }
  assert (Hdone : (checks (trace w) ≤ checks (trace w1))%nat ∧
                  (checks (trace w1) = checks (trace w) → self1 = self)).
  { destruct Hstep as [[-> Hsame]|Hmore]; split; try done; lia. }
  destruct o1 as [ready|e|]; [|by intros [= <- <- <-]..].
  destruct ready; simpl; [by intros [= <- <- <-]|].
  destruct (sleep interval w1) as [o2 w2] eqn:Hs.
  pose proof (sleep_checks _ _ _ _ Hs) as Hs'.
  destruct o2 as [u|e|].
  - intros Hl. destruct (IH _ _ _ _ _ Hl) as [Hle Heq].
    rewrite Hs' in Hle, Heq. split; [lia|].
    intros Hsame. destruct Hdone as [Hle1 Heq1].
    rewrite Heq by lia. apply Heq1. lia.
  - intros [= <- <- <-]. by rewrite Hs'.
  - intros [= <- <- <-]. by rewrite Hs'.
Qed.

Lemma run_op_checks o self w :
  (checks (trace w) ≤ checks (trace (run_op o (self, w)).2))%nat ∧
  (checks (trace (run_op o (self, w)).2) = checks (trace w) →
   (run_op o (self, w)).1 = self).
Proof.
  destruct o as [|timeout interval clock|]; simpl; [| |done].
  - destruct (is_ready self w) as [[o1 self1] w1] eqn:Hr. simpl.
    destruct (is_ready_trace _ _ _ _ _ Hr) as [[-> ->]|[rid ->]]; [done|].
    rewrite checks_snoc_check. split; lia.
  - unfold poll. destruct clock as [|start clock]; [done|].
    destruct (poll_loop start timeout interval clock self w)
      as [[o1 self1] w1] eqn:Hl.
    apply poll_loop_checks in Hl. by destruct o1.
Qed.

Lemma run_ops_cons o os st : run_ops (o :: os) st = run_ops os (run_op o st).
Proof. reflexivity. Qed.

Lemma run_ops_checks os : ∀ self w,
  (checks (trace w) ≤ checks (trace (run_ops os (self, w)).2))%nat ∧
  (checks (trace (run_ops os (self, w)).2) = checks (trace w) →
   (run_ops os (self, w)).1 = self).
Proof.
  induction os as [|o os IH]; intros self w; [done|].
  rewrite run_ops_cons.
  pose proof (run_op_checks o self w) as [Hle Heq].
  destruct (run_op o (self, w)) as [self1 w1]. simpl in Hle, Heq.
  destruct (IH self1 w1) as [Hle' Heq'].
  split; [lia|]. intros Hsame. rewrite Heq' by lia. apply Heq. lia.
Qed.

(** C9: on a freshly constructed request [get()] raises nothing and
    returns the [results] field, still [None]; and so it does after any
    public operations, as long as none of them made a check. *)
Theorem get_fresh_returns_None mgr requests kw self :
  MembershipRequest_init mgr requests kw = Ret self →
  get self = Ret None ∧ results self = None ∧
  _expired_exception self = None ∧ _not_ready_exception self = None ∧
  state_of self = Pending ∧
  ∀ os w,
    checks (trace (run_ops os (self, w)).2) = checks (trace w) →
    get (run_ops os (self, w)).1 = Ret None.
Proof.
  unfold MembershipRequest_init.
  destruct (kwargs_clash kw); [discriminate|].
  intros [= <-]. repeat split.
  intros os w Hsame.
  by rewrite (proj2 (run_ops_checks os _ w) Hsame).
Qed.

Lemma get_fresh_returns_None_witness :
  get scenario_request = Ret None ∧ results scenario_request = None ∧
  _expired_exception scenario_request = None ∧
  _not_ready_exception scenario_request = None ∧
  state_of scenario_request = Pending ∧
  ∀ os w,
    checks (trace (run_ops os (scenario_request, w)).2) = checks (trace w) →
    get (run_ops os (scenario_request, w)).1 = Ret None.
Proof.
  apply (get_fresh_returns_None a_manager [ann_request]
           {[ "results_id" := "r1" ]} scenario_request).
  reflexivity.
Defined.

(** * Further properties *)

(** ** A check that succeeds *)

Lemma process_new_members_ok (returned : list record) (self : MembershipRequest) :
  Forall (λ rec : record, is_Some (rec !! "guid")) returned →
  NoDup (guids (filter (guid_in returned) (_requests self))) →
  (∀ rec g, rec ∈ returned → rec !! "guid" = Some g →
            g ∈ guids (_requests self) → member_fields rec) →
  ∃ ms,
    _process_new_members returned self =
      (Ret tt,
       set_results
         (Some (mkResults ms
                  (filter (λ request, ¬ guid_in returned request)
                          (_requests self)))) self) ∧
    Forall2 (answers (manager self) returned) ms
            (filter (guid_in returned) (_requests self)).
Proof.
  intros Hguid Hnodup Hfields.
  destruct (index_by_guid_spec returned ∅ Hguid) as (idx & Hidx & Hdom & Hin).
  destruct (reconcile_spec (manager self) returned (_requests self) idx [] [])
    as (ms & Hrun & Hall); [| |done|].
  - intros g. rewrite Hdom, lookup_empty. split; [|by left].
    intros [?|[? [=]]]; done.
  - intros request g rec Hreq Hg Hl.
    destruct (Hin g rec Hl) as [[Hrec Hrg]|Hempty];
      [|by rewrite lookup_empty in Hempty].
    split; [done|]. split; [done|].
    apply (Hfields rec g); [done..|]. apply elem_of_guids. by exists request.
  - exists ms. split; [|done].
    unfold _process_new_members. by rewrite Hidx, Hrun.
Qed.

(** X1: a check that returns the records makes the request [Ready]; the
    results are the reconciled members and failures, and [get()] returns
    them, whatever "not ready" was recorded before. *)
Theorem is_ready_results_available self w rid (returned : list record) rest :
  _is_ready self = false →
  _expired_exception self = None →
  data self !! "results_id" = Some rid →
  server w = inr returned :: rest →
  Forall (λ rec : record, is_Some (rec !! "guid")) returned →
  NoDup (guids (filter (guid_in returned) (_requests self))) →
  (∀ rec g, rec ∈ returned → rec !! "guid" = Some g →
            g ∈ guids (_requests self) → member_fields rec) →
  ∃ self' ms,
    is_ready self w =
      (Ret true, self', mkWorld rest (trace w ++ [EvCheck rid])) ∧
    state_of self' = Ready ∧
    _not_ready_exception self' = None ∧
    get self' =
      Ret (Some (mkResults ms
                   (filter (λ request, ¬ guid_in returned request)
                           (_requests self)))) ∧
    Forall2 (answers (manager self) returned) ms
            (filter (guid_in returned) (_requests self)).
Proof.
  intros Hnr Hexp Hrid Hsrv Hguid Hnodup Hfields.
  set (self2 := set_not_ready_exception None (set_is_ready true self)).
  destruct (process_new_members_ok returned self2 Hguid Hnodup Hfields)
    as (ms & Hrun & Hall).
  eexists _, ms. unfold is_ready, _check_if_ready, Resource_getattr.
  rewrite Hnr, Hrid, Hsrv. simpl. fold self2. rewrite Hrun. simpl.
  split; [done|]. unfold state_of, get. simpl. rewrite Hexp. by repeat split.
Qed.

Lemma is_ready_results_available_witness :
  ∃ self' ms,
    is_ready not_ready_request
      (mkWorld [inr [ann_returned_in_group; stray_returned]] [EvCheck "r1"]) =
      (Ret true, self', mkWorld [] ([EvCheck "r1"] ++ [EvCheck "r1"])) ∧
    state_of self' = Ready ∧
    _not_ready_exception self' = None ∧
    get self' =
      Ret (Some (mkResults ms
                   (filter (λ request,
                              ¬ guid_in [ann_returned_in_group; stray_returned]
                                  request)
                           (_requests not_ready_request)))) ∧
    Forall2 (answers (manager not_ready_request)
                     [ann_returned_in_group; stray_returned]) ms
            (filter (guid_in [ann_returned_in_group; stray_returned])
                    (_requests not_ready_request)).
Proof.
  apply (is_ready_results_available not_ready_request
           (mkWorld [inr [ann_returned_in_group; stray_returned]] [EvCheck "r1"])
           "r1" [ann_returned_in_group; stray_returned] []);
    try reflexivity.
  - repeat constructor; by eexists.
  - vm_compute. repeat constructor. by intros Hin%elem_of_nil.
  - intros rec g Hrec Hg Hreq.
    apply elem_of_cons in Hrec as [->|Hrec].
    + repeat split; by eexists.
    + apply list_elem_of_singleton in Hrec as ->.
      vm_compute in Hg. injection Hg as <-.
      change (guids (_requests not_ready_request)) with ["g1"] in Hreq.
      rewrite !elem_of_cons, elem_of_nil in Hreq. intuition discriminate.
Defined.

(** ** A request without a results id *)

(** X2: a request whose data holds no [results_id] cannot be checked:
    [is_ready()] raises [AttributeError] before the server is asked, and
    so does [poll] as soon as its loop is entered; the request and the
    world stay as they were. *)
Theorem is_ready_without_results_id self w :
  _is_ready self = false →
  data self !! "results_id" = None →
  is_ready self w =
    (Raise (AttributeError "MembershipRequest" "results_id"), self, w) ∧
  ∀ timeout interval start now clock,
    now - start < timeout →
    poll timeout interval (start :: now :: clock) self w =
      (Raise (AttributeError "MembershipRequest" "results_id"), self, w).
Proof.
  intros Hnr Hrid.
  assert (is_ready self w =
            (Raise (AttributeError "MembershipRequest" "results_id"), self, w))
    as Hready.
  { unfold is_ready, _check_if_ready, Resource_getattr. by rewrite Hnr, Hrid. }
  split; [done|]. intros timeout interval start now clock Hlt.
  unfold poll, poll_loop. rewrite Hready.
  by destruct (Z.ltb_spec (now - start) timeout); [|lia].
Qed.

Lemma is_ready_without_results_id_witness :
  let self := set_results None
                (mkMembershipRequest a_manager {[ "qux" := "quux" ]}
                   [ann_request] None None false None) in
  let w := mkWorld [inr [ann_returned_in_group]] [] in
  is_ready self w =
    (Raise (AttributeError "MembershipRequest" "results_id"), self, w) ∧
  ∀ timeout interval start now clock,
    now - start < timeout →
    poll timeout interval (start :: now :: clock) self w =
      (Raise (AttributeError "MembershipRequest" "results_id"), self, w).
Proof.
  apply (is_ready_without_results_id
           (set_results None
              (mkMembershipRequest a_manager {[ "qux" := "quux" ]}
                 [ann_request] None None false None))
           (mkWorld [inr [ann_returned_in_group]] []));
    reflexivity.
Defined.

(** ** A check that fails for another reason *)

(** X3: an exception of the check that is neither "not ready" nor
    "expired" is not absorbed: [is_ready()] raises it, and so does [poll];
    one check was made, and the request is as it was, still [Pending]. *)
Theorem is_ready_lets_other_failures_through self w rid e rest :
  _is_ready self = false →
  data self !! "results_id" = Some rid →
  server w = inl e :: rest →
  (∀ resp, e ≠ ResultsNotReady resp ∧ e ≠ ResultsExpired resp) →
  is_ready self w = (Raise e, self, mkWorld rest (trace w ++ [EvCheck rid])) ∧
  state_of self = Pending ∧
  ∀ timeout interval start now clock,
    now - start < timeout →
    poll timeout interval (start :: now :: clock) self w =
      (Raise e, self, mkWorld rest (trace w ++ [EvCheck rid])).
Proof.
  intros Hnr Hrid Hsrv Hother.
  assert (is_ready self w =
            (Raise e, self, mkWorld rest (trace w ++ [EvCheck rid])))
    as Hready.
  { unfold is_ready, _check_if_ready, Resource_getattr.
    rewrite Hnr, Hrid, Hsrv. simpl.
    destruct e; try done; by destruct (Hother resp). }
  split; [done|]. split; [unfold state_of; by rewrite Hnr|].
  intros timeout interval start now clock Hlt.
  unfold poll, poll_loop. rewrite Hready.
  by destruct (Z.ltb_spec (now - start) timeout); [|lia].
Qed.

Lemma is_ready_lets_other_failures_through_witness :
  let w := mkWorld [Memberships_check (mkResponse 500 [])] [] in
  let e := BadResponse (mkResponse 500 []) in
  is_ready scenario_request w =
    (Raise e, scenario_request, mkWorld [] ([] ++ [EvCheck "r1"])) ∧
  state_of scenario_request = Pending ∧
  ∀ timeout interval start now clock,
    now - start < timeout →
    poll timeout interval (start :: now :: clock) scenario_request w =
      (Raise e, scenario_request, mkWorld [] ([] ++ [EvCheck "r1"])).
Proof.
  apply (is_ready_lets_other_failures_through scenario_request
           (mkWorld [Memberships_check (mkResponse 500 [])] []) "r1"
           (BadResponse (mkResponse 500 [])) []);
    try reflexivity.
  intros resp. split; discriminate.
Defined.

(** ** The end of a poll *)

Lemma sleeps_snoc_check t rid : sleeps (t ++ [EvCheck rid]) = sleeps t.
Proof. unfold sleeps. rewrite List.filter_app, length_app. simpl. lia. Qed.

Lemma sleeps_snoc_sleep t interval :
  sleeps (t ++ [EvSleep interval]) = S (sleeps t).
Proof. unfold sleeps. rewrite List.filter_app, length_app. simpl. lia. Qed.

(** One call of [is_ready()]: it runs out of script only on an empty
    script, uses up at most one answer, makes at most one check and does
    not sleep. *)
Lemma is_ready_steps self w o self' w' :
  is_ready self w = (o, self', w') →
  (o = OutOfScript → server w = []) ∧
  (length (server w) ≤ S (length (server w')))%nat ∧
  (checks (trace w') ≤ S (checks (trace w)))%nat ∧
  sleeps (trace w') = sleeps (trace w).
Proof.
  unfold is_ready. destruct (_is_ready self); simpl.
  { intros [= <- <- <-]. repeat split; [done|lia..]. }
  unfold _check_if_ready, Resource_getattr.
  destruct (data self !! "results_id") as [rid|].
  2:{ intros [= <- <- <-]. repeat split; [done|lia..]. }
  destruct (server w) as [|answer rest] eqn:Hsrv.
  { intros [= <- <- <-]. rewrite Hsrv. repeat split; simpl; lia. }
  intros Hrun.
  assert (o ≠ OutOfScript ∧ w' = mkWorld rest (trace w ++ [EvCheck rid]))
    as [Ho ->].
  { destruct answer as [e|results'].
    - destruct e; by injection Hrun as <- <- <-.
    - destruct (_process_new_members _ _) as [o1 self3] eqn:Hp.
      assert (o1 ≠ OutOfScript) as Ho1.
      { unfold _process_new_members in Hp.
        assert (∀ l idx, index_by_guid l idx ≠ OutOfScript) as Hidx.
        { induction l as [|member l IH]; intros idx; simpl; [done|].
          destruct (member !! "guid"); [apply IH|done]. }
        assert (∀ l idx ms fs,
                  reconcile (manager self) l idx ms fs ≠ OutOfScript) as Hrec.
        { induction l as [|request l IH]; intros idx ms fs; simpl; [done|].
          destruct (lookup_request idx request) as [[g md]|]; [|apply IH].
          destruct (md !! "guid"); [|done].
          unfold Member_init, Resource_getattr.
          destruct (kwargs_clash _); [done|].
          destruct (delete "guid" md !! "group_id"); [|done].
          destruct (delete "group_id" _ !! "user_id"); simpl; [apply IH|done]. }
        destruct (index_by_guid results' ∅) as [idx| |] eqn:Hi;
          [|by injection Hp as <- _|by destruct (Hidx results' ∅)].
        destruct (reconcile _ _ idx [] []) eqn:Hr;
          [by injection Hp as <- _..|by destruct (Hrec _ _ _ _ Hr)]. }
      destruct o1; injection Hrun as <- <- <-; by split. }
  simpl. rewrite checks_snoc_check, sleeps_snoc_check.
  repeat split; [done|lia..].
Qed.

Lemma poll_loop_finishes start timeout interval now post :
  timeout ≤ now - start →
  ∀ pre self w o self' w',
    (length pre ≤ length (server w))%nat →
    poll_loop start timeout interval (pre ++ now :: post) self w =
      (o, self', w') →
    o ≠ OutOfScript ∧
    (checks (trace w') ≤ checks (trace w) + length pre)%nat ∧
    (sleeps (trace w') ≤ sleeps (trace w) + length pre)%nat.
Proof.
  intros Hdeadline.
  induction pre as [|t pre IH]; intros self w o self' w' Hlen; simpl.
  { destruct (Z.ltb_spec (now - start) timeout); [lia|].
    intros [= <- <- <-]. repeat split; [done|lia..]. }
  destruct (t - start <? timeout).
  2:{ intros [= <- <- <-]. repeat split; [done|lia..]. }
  destruct (is_ready self w) as [[o1 self1] w1] eqn:Hr.
  destruct (is_ready_steps _ _ _ _ _ Hr) as (Hout & Hsrv & Hchk & Hslp).
  simpl in Hlen.
  destruct o1 as [ready|e|].
  - destruct ready; simpl.
    { intros [= <- <- <-]. repeat split; [done|lia..]. }
    unfold sleep. destruct (interval <? 0).
    { intros [= <- <- <-]. repeat split; [done|lia..]. }
    intros Hl. apply IH in Hl as (Ho & Hchk' & Hslp'); [|simpl; lia].
    simpl in Hchk', Hslp'.
    rewrite checks_snoc_sleep in Hchk'. rewrite sleeps_snoc_sleep in Hslp'.
    repeat split; [done|lia..].
  - intros [= <- <- <-]. repeat split; [done|lia..].
  - rewrite Hout in Hlen by done. simpl in Hlen. lia.
Qed.

(** X4: [poll] comes to an end: when a reading of the clock is at or past
    the deadline and the server has an answer for every reading before
    it, [poll] returns or raises, having made no more checks and no more
    sleeps than there were readings before that one. *)
Theorem poll_finishes_by_deadline timeout interval start pre now post self w :
  timeout ≤ now - start →
  (length pre ≤ length (server w))%nat →
  let '(o, self', w') :=
    poll timeout interval (start :: pre ++ now :: post) self w in
  o ≠ OutOfScript ∧
  (checks (trace w') ≤ checks (trace w) + length pre)%nat ∧
  (sleeps (trace w') ≤ sleeps (trace w) + length pre)%nat.
Proof.
  intros Hdeadline Hlen. unfold poll.
  destruct (poll_loop start timeout interval (pre ++ now :: post) self w)
    as [[o1 self1] w1] eqn:Hl.
  destruct (poll_loop_finishes _ _ _ _ _ Hdeadline _ _ _ _ _ _ Hlen Hl)
    as (Ho & Hchk & Hslp).
  destruct o1 as [u|e|]; [|done..].
  split; [|done]. unfold get.
  destruct (_expired_exception self1); [done|].
  by destruct (_not_ready_exception self1).
Qed.

Lemma poll_finishes_by_deadline_witness :
  let w := mkWorld [Memberships_check not_ready_response;
                    Memberships_check not_ready_response] [] in
  let '(o, self', w') :=
    poll 30 2 (0 :: [1; 15] ++ 31 :: [40]) scenario_request w in
  o ≠ OutOfScript ∧
  (checks (trace w') ≤ checks (trace w) + length [1; 15])%nat ∧
  (sleeps (trace w') ≤ sleeps (trace w) + length [1; 15])%nat.
Proof.
  apply (poll_finishes_by_deadline 30 2 0 [1; 15] 31 [40] scenario_request
           (mkWorld [Memberships_check not_ready_response;
                     Memberships_check not_ready_response] [])).
  - lia.
  - simpl. lia.
Defined.

(** ** Building a member, and what a member does *)

Lemma kwargs_clash_delete (kw : record) k :
  k ≠ "self" → k ≠ "manager" → kwargs_clash (delete k kw) = kwargs_clash kw.
Proof.
  intros Hs Hm. unfold kwargs_clash. by rewrite !lookup_delete_ne.
Qed.

(** X5: the two ways of calling the constructor agree: a member built from
    a record that names its group, as reconciliation does, is the member
    built from the rest of the record with the group passed beside it, as
    [Group.__init__] does; passing the group beside a record that names
    one is refused. *)
Theorem Member_init_keyword_or_positional mgr (kw : record) gid :
  kw !! "group_id" = Some gid →
  Member_init mgr kw = Member_init_positional mgr gid (delete "group_id" kw) ∧
  ∀ gid', Member_init_positional mgr gid' kw = Raise TypeError.
Proof.
  intros Hgid. split.
  - unfold Member_init, Member_init_positional.
    rewrite kwargs_clash_delete by done. rewrite lookup_delete_eq, Hgid.
    by destruct (kwargs_clash kw).
  - intros gid'. unfold Member_init_positional. rewrite Hgid.
    rewrite bool_decide_eq_true_2 by (by eexists).
    by rewrite orb_true_r.
Qed.

Lemma Member_init_keyword_or_positional_witness :
  Member_init a_manager ann_returned_in_group =
    Member_init_positional a_manager "group"
      (delete "group_id" ann_returned_in_group) ∧
  ∀ gid', Member_init_positional a_manager gid' ann_returned_in_group =
            Raise TypeError.
Proof.
  apply (Member_init_keyword_or_positional a_manager ann_returned_in_group
           "group").
  reflexivity.
Defined.

(** X6: on a member that the constructor built from [kw], blocking,
    unblocking and asking whether the user is blocked never fail and name
    the [user_id] of [kw], the user the member's direct messages go to;
    [remove] is asked of the memberships of the group of [kw] with the
    [id] of [kw], and raises [AttributeError] when [kw] has none. *)
Theorem Member_operations_after_init mgr (kw : record) m :
  Member_init mgr kw = Ret m →
  ∃ uid gid,
    kw !! "user_id" = Some uid ∧ kw !! "group_id" = Some gid ∧
    other_user_id (messages m) = uid ∧
    Member_is_blocked m = Ret (Blocks_between (mkUser (session mgr)) uid) ∧
    Member_block m = Ret (Blocks_block (mkUser (session mgr)) uid) ∧
    Member_unblock m = Ret (Blocks_unblock (mkUser (session mgr)) uid) ∧
    Member_remove m =
      match kw !! "id" with
      | Some mid =>
          Ret (Memberships_remove (mkMemberships (session mgr) gid) mid)
      | None => Raise (AttributeError "Member" "id")
      end.
Proof.
  unfold Member_init, Resource_getattr.
  destruct (kwargs_clash kw); [discriminate|].
  destruct (kw !! "group_id") as [gid|] eqn:Hgid; [|discriminate].
  rewrite lookup_delete_ne by done.
  destruct (kw !! "user_id") as [uid|] eqn:Huid; [|discriminate].
  simpl. intros [= <-]. exists uid, gid.
  unfold Member_is_blocked, Member_block, Member_unblock, Member_remove,
    Resource_getattr. simpl.
  rewrite !lookup_delete_ne by done. rewrite Huid. simpl.
  repeat split. by destruct (kw !! "id").
Qed.

Lemma Member_operations_after_init_witness :
  ∃ uid gid,
    fake_member_data !! "user_id" = Some uid ∧
    fake_member_data !! "group_id" = Some gid ∧
    other_user_id (messages fake_member) = uid ∧
    Member_is_blocked fake_member =
      Ret (Blocks_between (mkUser (session a_manager)) uid) ∧
    Member_block fake_member =
      Ret (Blocks_block (mkUser (session a_manager)) uid) ∧
    Member_unblock fake_member =
      Ret (Blocks_unblock (mkUser (session a_manager)) uid) ∧
    Member_remove fake_member =
      match fake_member_data !! "id" with
      | Some mid =>
          Ret (Memberships_remove (mkMemberships (session a_manager) gid) mid)
      | None => Raise (AttributeError "Member" "id")
      end.
Proof.
  apply (Member_operations_after_init a_manager fake_member_data fake_member).
  reflexivity.
Defined.

(** ** The conversation id of a direct message *)

Lemma sorted_pair_swap a b : sorted_pair a b = sorted_pair b a.
Proof.
  unfold sorted_pair, String.ltb.
  rewrite (String.compare_antisym b a).
  destruct (String.compare a b) eqn:Hc; simpl; try done.
  apply String.compare_eq_iff in Hc. by subst.
Qed.

Lemma sorted_pair_cases a b :
  sorted_pair a b = [a; b] ∨ sorted_pair a b = [b; a].
Proof. unfold sorted_pair. destruct (String.ltb b a); [by right|by left]. Qed.

Lemma ensure_conversation_id_fresh (data : record) recipient sender :
  data !! "conversation_id" = None →
  data !! "recipient_id" = Some recipient →
  data !! "sender_id" = Some sender →
  ensure_conversation_id data =
    (Ret tt,
     <[ "conversation_id" := String.concat "+" (sorted_pair recipient sender) ]>
       data).
Proof.
  intros Hcid Hr Hs. unfold ensure_conversation_id. by rewrite Hcid, Hr, Hs.
Qed.

(** X7: the conversation id does not tell who wrote to whom: a message
    from [a] to [b] and a message from [b] to [a], neither with a
    conversation id yet, are given the same one, the two ids joined by a
    plus sign. *)
Theorem conversation_id_symmetric (data : record) a b :
  data !! "conversation_id" = None →
  ∃ cid,
    ensure_conversation_id
      (<[ "recipient_id" := a ]> (<[ "sender_id" := b ]> data)) =
      (Ret tt,
       <[ "conversation_id" := cid ]>
         (<[ "recipient_id" := a ]> (<[ "sender_id" := b ]> data))) ∧
    ensure_conversation_id
      (<[ "recipient_id" := b ]> (<[ "sender_id" := a ]> data)) =
      (Ret tt,
       <[ "conversation_id" := cid ]>
         (<[ "recipient_id" := b ]> (<[ "sender_id" := a ]> data))) ∧
    (cid = a +:+ "+" +:+ b ∨ cid = b +:+ "+" +:+ a).
Proof.
  intros Hcid. exists (String.concat "+" (sorted_pair a b)).
  split; [|split].
  - apply ensure_conversation_id_fresh.
    + by rewrite !lookup_insert_ne.
    + by rewrite lookup_insert_eq.
    + by rewrite lookup_insert_ne, lookup_insert_eq.
  - rewrite (sorted_pair_swap a b). apply ensure_conversation_id_fresh.
    + by rewrite !lookup_insert_ne.
    + by rewrite lookup_insert_eq.
    + by rewrite lookup_insert_ne, lookup_insert_eq.
  - destruct (sorted_pair_cases a b) as [->| ->]; [by left|by right].
Qed.

Lemma conversation_id_symmetric_witness :
  ∃ cid,
    ensure_conversation_id
      (<[ "recipient_id" := "20" ]> (<[ "sender_id" := "100" ]> ∅)) =
      (Ret tt,
       <[ "conversation_id" := cid ]>
         (<[ "recipient_id" := "20" ]> (<[ "sender_id" := "100" ]> ∅))) ∧
    ensure_conversation_id
      (<[ "recipient_id" := "100" ]> (<[ "sender_id" := "20" ]> ∅)) =
      (Ret tt,
       <[ "conversation_id" := cid ]>
         (<[ "recipient_id" := "100" ]> (<[ "sender_id" := "20" ]> ∅))) ∧
    (cid = "20" +:+ "+" +:+ "100" ∨ cid = "100" +:+ "+" +:+ "20").
Proof.
  apply (conversation_id_symmetric ∅ "20" "100"). reflexivity.
Defined.

(** X8: [ensure_conversation_id] succeeds exactly when the data has a
    conversation id or both participants' ids; it touches no other field
    than [conversation_id], and not that one when it is there; once it has
    succeeded, a second call changes nothing; when it raises, the data is
    as it was. *)
Theorem ensure_conversation_id_once (data : record) :
  let '(o, data') := ensure_conversation_id data in
  (∀ k, k ≠ "conversation_id" → data' !! k = data !! k) ∧
  (is_Some (data !! "conversation_id") → data' = data) ∧
  (o = Ret tt ↔
     is_Some (data !! "conversation_id") ∨
     (is_Some (data !! "recipient_id") ∧ is_Some (data !! "sender_id"))) ∧
  (o = Ret tt →
     is_Some (data' !! "conversation_id") ∧
     ensure_conversation_id data' = (Ret tt, data')) ∧
  (o ≠ Ret tt → data' = data).
Proof.
  unfold ensure_conversation_id.
  destruct (data !! "conversation_id") as [cid|] eqn:Hcid;
    [|destruct (data !! "recipient_id") as [recipient|] eqn:Hr;
      [destruct (data !! "sender_id") as [sender|] eqn:Hs|]];
    rewrite ?Hcid, ?lookup_insert_eq; repeat split;
    first [ done
          | by eexists
          | intros _; left; by eexists
          | intros _; right; split; by eexists
          | by intros [[? [=]]|[[? [=]] _]]
          | by intros [[? [=]]|[_ [? [=]]]]
          | by intros [? [=]]
          | intros k Hk; by rewrite lookup_insert_ne ].
Qed.

(** ** Attachments *)

Lemma types_lookup (type : string) (c : attachment_class) :
  _types !! type = Some c ↔ type = lower (class_name c).
Proof.
  split; [|intros ->; by destruct c].
  assert (_types =
            <[ "mentions" := Mentions ]>
              (<[ "emoji" := Emoji ]>
                 (<[ "split" := Split ]>
                    (<[ "location" := Location ]>
                       (<[ "image" := Image ]>
                          (<[ "attachment" := Attachment ]> ∅))))))
    as -> by reflexivity.
  rewrite !lookup_insert_Some, lookup_empty.
  intros H. repeat (destruct H as [[<- <-]|[_ H]]; [reflexivity|]).
  discriminate.
Qed.

Lemma Attachment_init_ok {M : Type} cls (mgr : M) (kw : record) type :
  kw !! "type" = Some type → kw !! "manager" = None → kw !! "self" = None →
  Attachment_init cls mgr kw = Ret (mkAttachment cls mgr kw).
Proof.
  intros Htype Hmgr Hself. unfold Attachment_init, kwargs_clash.
  rewrite Hmgr, Hself, Htype. simpl.
  by rewrite insert_delete_eq, insert_id.
Qed.

Lemma from_data_ok {M : Type} cls (mgr : M) (kw : record) :
  attachment_fields kw →
  ∃ type, kw !! "type" = Some type ∧
          from_data cls mgr kw =
            Ret (mkAttachment (default cls (_types !! type)) mgr kw).
Proof.
  intros ([type Htype] & Hcls & Hmgr & Hself). exists type. split; [done|].
  unfold from_data. rewrite Hcls, Hmgr, Htype. simpl.
  by apply Attachment_init_ok with type.
Qed.

(** X9: [from_data] and [to_json] are a round trip: the attachment made
    from a record that has a [type] (and names no parameter of the calls)
    gives the record back, whole, and keeps the manager it was made
    with. *)
Theorem from_data_to_json {M : Type} cls (mgr : M) (kw : record) :
  attachment_fields kw →
  ∃ a, from_data cls mgr kw = Ret a ∧
       to_json a = kw ∧ attachment_manager a = mgr.
Proof.
  intros Hkw. destruct (from_data_ok cls mgr kw Hkw) as (type & _ & ->).
  by eexists.
Qed.

Lemma from_data_to_json_witness :
  ∃ a, from_data Attachment a_manager location_data = Ret a ∧
       to_json a = location_data ∧ attachment_manager a = a_manager.
Proof.
  apply (from_data_to_json Attachment a_manager location_data).
  repeat split; by eexists.
Defined.

(** X10: the class of an attachment is chosen by its [type] alone when
    the type is the lower-case name of a class, whichever class
    [from_data] was called on; any other type, the capitalised name of a
    class among them, gives the class [from_data] was called on. *)
Theorem from_data_dispatch {M : Type} cls (mgr : M) (kw : record)
    (type : value) :
  attachment_fields kw →
  kw !! "type" = Some type →
  ∃ a, from_data cls mgr kw = Ret a ∧
       (∀ c, type = lower (class_name c) → attachment_cls a = c) ∧
       ((∀ c, type ≠ lower (class_name c)) → attachment_cls a = cls) ∧
       (∀ c, type = class_name c → attachment_cls a = cls).
Proof.
  intros Hkw Htype.
  destruct (from_data_ok cls mgr kw Hkw) as (type' & Htype' & ->).
  rewrite Htype in Htype'. injection Htype' as <-.
  eexists. split; [done|]. simpl. unfold value in *.
  assert ((∀ c, type ≠ lower (class_name c)) → _types !! type = None)
    as Hnone.
  { intros Hne. destruct (_types !! type) as [c|] eqn:Hl; [|done].
    apply types_lookup in Hl. by destruct (Hne c). }
  split; [|split].
  - intros c Hc. apply types_lookup in Hc. by rewrite Hc.
  - intros Hne. by rewrite Hnone.
  - intros c ->. rewrite Hnone; [done|].
    intros c'. by destruct c, c'.
Qed.

Lemma from_data_dispatch_witness :
  ∃ a, from_data Attachment a_manager image_data = Ret a ∧
       (∀ c, "image" = lower (class_name c) → attachment_cls a = c) ∧
       ((∀ c, "image" ≠ lower (class_name c)) →
          attachment_cls a = Attachment) ∧
       (∀ c, "image" = class_name c → attachment_cls a = Attachment).
Proof.
  apply (from_data_dispatch Attachment a_manager image_data "image").
  - repeat split; by eexists.
  - reflexivity.
Defined.

(** X11: [from_bulk_data] keeps the attachments in order, one for each
    record: turned back [to_json], they are the records it was given. *)
Theorem from_bulk_data_to_json {M : Type} cls (mgr : M)
    (attachments : list record) :
  Forall attachment_fields attachments →
  ∃ l, from_bulk_data cls mgr attachments = Ret l ∧
       to_json <$> l = attachments ∧
       length l = length attachments ∧
       Forall (λ a, attachment_manager a = mgr) l.
Proof.
  induction 1 as [|kw attachments Hkw _ IH]; simpl.
  - exists []. repeat split. constructor.
  - destruct IH as (l & -> & Hjson & Hlen & Hmgr).
    destruct (from_data_ok cls mgr kw Hkw) as (type & _ & ->). simpl.
    eexists. split; [done|].
    split; [simpl; by f_equal|]. split; [simpl; by f_equal|].
    by constructor.
Qed.

Lemma from_bulk_data_to_json_witness :
  ∃ l, from_bulk_data Attachment a_manager [image_data; location_data] = Ret l ∧
       to_json <$> l = [image_data; location_data] ∧
       length l = length [image_data; location_data] ∧
       Forall (λ a, attachment_manager a = a_manager) l.
Proof.
  apply (from_bulk_data_to_json Attachment a_manager
           [image_data; location_data]).
  repeat constructor; by eexists.
Defined.

(** X12: [from_bulk_data] stops at the first record that [from_data]
    refuses, with the exception that record raised (a record without
    [type]: [KeyError]), whatever comes after it. *)
Theorem from_bulk_data_first_failure {M : Type} cls (mgr : M)
    (pre post : list record) (bad : record) e :
  Forall attachment_fields pre →
  from_data cls mgr bad = Raise e →
  from_bulk_data cls mgr (pre ++ bad :: post) = Raise e.
Proof.
  intros Hpre Hbad. induction Hpre as [|kw pre Hkw _ IH]; simpl.
  - by rewrite Hbad.
  - destruct (from_data_ok cls mgr kw Hkw) as (type & _ & ->). simpl.
    by rewrite IH.
Qed.

Lemma from_bulk_data_first_failure_witness :
  from_bulk_data Attachment a_manager
    ([image_data] ++ untyped_data :: [location_data; ∅]) =
    Raise (KeyError "type").
Proof.
  apply (from_bulk_data_first_failure Attachment a_manager [image_data]
           [location_data; ∅] untyped_data (KeyError "type")).
  - repeat constructor; by eexists.
  - reflexivity.
Defined.

(** ** The preview of a message *)

Lemma preview_text_long (text : pystr) :
  (preview_length < length text)%nat →
  preview_text text = take 39 text ++ literal "...".
Proof.
  intros Hlong. unfold preview_text.
  rewrite bool_decide_eq_false_2 by (intros ->; simpl in Hlong; lia).
  by rewrite (proj2 (Nat.ltb_lt _ _) Hlong).
Qed.

Lemma preview_text_short (text : pystr) :
  (length text ≤ preview_length)%nat → preview_text text = text.
Proof.
  intros Hshort. unfold preview_text.
  rewrite (proj2 (Nat.ltb_ge _ _) Hshort). by rewrite andb_false_r.
Qed.

(** X13: the text shown for a message is never longer than
    [preview_length]: a text of up to 42 characters is shown whole, a
    longer one as 42 characters, the last three of them dots; and what is
    shown is not shortened any further. *)
Theorem preview_text_length (text : pystr) :
  length (preview_text text) = (length text `min` preview_length)%nat ∧
  ((length text ≤ preview_length)%nat → preview_text text = text) ∧
  ((preview_length < length text)%nat →
     preview_text text = take 39 text ++ literal "...") ∧
  preview_text (preview_text text) = preview_text text.
Proof.
  assert (length (preview_text text) =
            (length text `min` preview_length)%nat) as Hlen.
  { destruct (Nat.le_gt_cases (length text) preview_length)
      as [Hshort|Hlong].
    - rewrite preview_text_short by done. lia.
    - rewrite preview_text_long by done.
      rewrite length_app, length_take.
      change (length (literal "...")) with 3%nat.
      unfold preview_length in *. lia. }
  split; [done|]. split; [apply preview_text_short|].
  split; [apply preview_text_long|].
  apply preview_text_short. rewrite Hlen. lia.
Qed.

(** A text of thirty accented letters is shown whole. *)
Example preview_text_accented :
  preview_text (replicate 30 233%N) = replicate 30 233%N.
Proof. reflexivity. Qed.

(** X14: of a long text, the representation of a message shows the first
    39 characters and nothing more: two messages of the same name, with as
    many attachments, whose long texts begin alike, are represented
    alike. *)
Theorem GenericMessage_repr_long_text (py_repr : pystr → pystr)
    (klass : string) {M : Type} (m1 m2 : GenericMessage M) (t1 t2 : pystr) :
  message_data m1 !! "text" = Some t1 →
  message_data m2 !! "text" = Some t2 →
  (preview_length < length t1)%nat →
  (preview_length < length t2)%nat →
  take 39 t1 = take 39 t2 →
  message_data m1 !! "name" = message_data m2 !! "name" →
  length (message_attachments m1) = length (message_attachments m2) →
  GenericMessage_repr py_repr klass m1 = GenericMessage_repr py_repr klass m2.
Proof.
  intros Ht1 Ht2 Hl1 Hl2 Hsame Hname Hatts.
  unfold GenericMessage_repr, message_getattr.
  rewrite Ht1, Ht2, Hname, Hatts. simpl.
  by rewrite !preview_text_long, Hsame.
Qed.

Lemma GenericMessage_repr_long_text_witness :
  GenericMessage_repr quoted_str "Message"
    (mkGenericMessage (M := Memberships)
       {[ "name" := literal "Ann"; "text" := long_text_1 ]} []) =
  GenericMessage_repr quoted_str "Message"
    (mkGenericMessage (M := Memberships)
       {[ "name" := literal "Ann"; "text" := long_text_2 ]} []).
Proof.
  apply (GenericMessage_repr_long_text quoted_str "Message"
           (mkGenericMessage (M := Memberships)
              {[ "name" := literal "Ann"; "text" := long_text_1 ]} [])
           (mkGenericMessage (M := Memberships)
              {[ "name" := literal "Ann"; "text" := long_text_2 ]} [])
           long_text_1 long_text_2);
    try reflexivity; unfold preview_length; simpl; lia.
Defined.
